(** * TriX PvP staking: the PlayGame match engine, the GameToken ledger and
      the leaderboard indexer, embedded from the Solidity and JavaScript
      sources and verified against the written specification.

    Conventions of the embedding.
    - [uint256], [address] and [bytes32] values are natural numbers in [N];
      Solidity 0.8 checked arithmetic is written out ([checked_add],
      [checked_mul] panic on overflow), [unchecked] blocks wrap modulo 2^256.
    - A contract function is a computation in the monad [M]: it reads and
      writes the contract storage and either returns or reverts.  A
      transaction that reverts leaves the storage as it was ([step]).
    - Solidity mappings are finite maps with the all-zero value as default. *)

From Stdlib Require Import NArith ZArith Lia Ascii String.
From stdpp Require Import base gmap list strings fin_maps sorting.

Local Open Scope N_scope.

(* ===================================================================== *)
(** ** Results and the storage monad                                      *)
(* ===================================================================== *)

Inductive result (A : Type) : Type :=
| Ok (a : A)
| Revert (msg : string)
| Panic (code : N).
Arguments Ok {A} a.
Arguments Revert {A} msg.
Arguments Panic {A} code.

Definition M (S A : Type) : Type := S → result (A * S).

Definition ret {S A} (a : A) : M S A := λ s, Ok (a, s).

Definition bind {S A B} (m : M S A) (k : A → M S B) : M S B :=
  λ s, match m s with
       | Ok (a, s') => k a s'
       | Revert msg => Revert msg
       | Panic c => Panic c
       end.

(** [x ← m; k] and [m ;; k] are stdpp's monad notations at [M S]. *)
#[global] Instance M_ret {S} : MRet (M S) := λ A, @ret S A.
#[global] Instance M_bind {S} : MBind (M S) := λ A B k m, @bind S A B m k.

Definition gets {S A} (f : S → A) : M S A := λ s, Ok (f s, s).
Definition modify {S} (f : S → S) : M S unit := λ s, Ok (tt, f s).
Definition require {S} (b : bool) (msg : string) : M S unit :=
  λ s, if b then Ok (tt, s) else Revert msg.

Definition MAX_UINT256 : N := 2 ^ 256 - 1.

(** Checked arithmetic of Solidity 0.8: overflow is [Panic(0x11)]. *)
Definition checked_add {S} (a b : N) : M S N :=
  λ s, if a + b <=? MAX_UINT256 then Ok (a + b, s) else Panic 17.
Definition checked_mul {S} (a b : N) : M S N :=
  λ s, if a * b <=? MAX_UINT256 then Ok (a * b, s) else Panic 17.

(* ===================================================================== *)
(** ** GameToken (contracts/GameToken): a pausable ERC-20                 *)
(* ===================================================================== *)

(** The token state.  [balances], [allowances] and [totalSupply] are the
    storage of the ERC-20 base contract, [paused] the flag of Pausable,
    [admins] and [minters] the holders of DEFAULT_ADMIN_ROLE and
    MINTER_ROLE.  The bodies of the inherited [_transfer], [_spendAllowance],
    [_approve] and [_mint] follow the OpenZeppelin 4.x base contracts that
    GameToken imports. *)
Record Token : Type := mkToken {
  balances : gmap N N;
  allowances : gmap (N * N) N;
  totalSupply : N;
  paused : bool;
  admins : gset N;
  minters : gset N
}.

Definition balanceOf (t : Token) (a : N) : N := default 0 (balances t !! a).
Definition allowance (t : Token) (owner spender : N) : N :=
  default 0 (allowances t !! (owner, spender)).

Definition set_balance (a v : N) (t : Token) : Token :=
  mkToken (<[a := v]> (balances t)) (allowances t) (totalSupply t) (paused t)
          (admins t) (minters t).
Definition set_allowance (owner spender v : N) (t : Token) : Token :=
  mkToken (balances t) (<[(owner, spender) := v]> (allowances t))
          (totalSupply t) (paused t) (admins t) (minters t).
Definition set_totalSupply (v : N) (t : Token) : Token :=
  mkToken (balances t) (allowances t) v (paused t) (admins t) (minters t).
Definition set_paused (b : bool) (t : Token) : Token :=
  mkToken (balances t) (allowances t) (totalSupply t) b (admins t) (minters t).
Definition add_minter (a : N) (t : Token) : Token :=
  mkToken (balances t) (allowances t) (totalSupply t) (paused t) (admins t)
          ({[a]} ∪ minters t).

Module ERC20.

Definition _transfer (from to amount : N) : M Token unit :=
  require (negb (from =? 0)) "ERC20: transfer from the zero address" ;;
  require (negb (to =? 0)) "ERC20: transfer to the zero address" ;;
  fromBalance ← gets (λ t, balanceOf t from);
  require (amount <=? fromBalance) "ERC20: transfer amount exceeds balance" ;;
  modify (set_balance from (fromBalance - amount)) ;;
  toBalance ← gets (λ t, balanceOf t to);
  modify (set_balance to ((toBalance + amount) mod 2 ^ 256)).

Definition _approve (owner spender amount : N) : M Token unit :=
  require (negb (owner =? 0)) "ERC20: approve from the zero address" ;;
  require (negb (spender =? 0)) "ERC20: approve to the zero address" ;;
  modify (set_allowance owner spender amount).

Definition _spendAllowance (owner spender amount : N) : M Token unit :=
  currentAllowance ← gets (λ t, allowance t owner spender);
  if negb (currentAllowance =? MAX_UINT256) then
    require (amount <=? currentAllowance) "ERC20: insufficient allowance" ;;
    _approve owner spender (currentAllowance - amount)
  else ret tt.

Definition _mint (account amount : N) : M Token unit :=
  require (negb (account =? 0)) "ERC20: mint to the zero address" ;;
  supply ← gets totalSupply;
  supply' ← checked_add supply amount;
  modify (set_totalSupply supply') ;;
  bal ← gets (λ t, balanceOf t account);
  modify (set_balance account ((bal + amount) mod 2 ^ 256)).

Definition transfer (sender to amount : N) : M Token bool :=
  _transfer sender to amount ;; ret true.

Definition transferFrom (sender from to amount : N) : M Token bool :=
  _spendAllowance from sender amount ;;
  _transfer from to amount ;;
  ret true.

Definition approve (sender spender amount : N) : M Token bool :=
  _approve sender spender amount ;; ret true.

End ERC20.

Module GameToken.

Definition whenNotPaused : M Token unit :=
  isPaused ← gets paused;
  require (negb isPaused) "Pausable: paused".

(** The revert reason of AccessControl spells out the account and the
    role in hexadecimal; the model keeps its fixed words. *)
Definition onlyRole (role : Token → gset N) (sender : N) : M Token unit :=
  holders ← gets role;
  require (bool_decide (sender ∈ holders)) "AccessControl: account is missing role".

(** The constructor grants both roles to the deployer. *)
Definition constructor (deployer : N) : Token :=
  mkToken ∅ ∅ 0 false {[deployer]} {[deployer]}.

Definition mint (sender to amount : N) : M Token unit :=
  onlyRole minters sender ;;
  whenNotPaused ;;
  ERC20._mint to amount.


Definition pause (sender : N) : M Token unit :=
  onlyRole admins sender ;;
  whenNotPaused ;;
  modify (set_paused true).

Definition unpause (sender : N) : M Token unit :=
  onlyRole admins sender ;;
  isPaused ← gets paused;
  require isPaused "Pausable: not paused" ;;
  modify (set_paused false).

Definition transfer (sender to amount : N) : M Token bool :=
  whenNotPaused ;;
  ERC20.transfer sender to amount.

Definition transferFrom (sender from to amount : N) : M Token bool :=
  whenNotPaused ;;
  ERC20.transferFrom sender from to amount.

End GameToken.

(* ===================================================================== *)
(** ** PlayGame (contracts/PlayGame.sol): the match engine                *)
(* ===================================================================== *)

(** Match status constants. *)
Definition CREATED : N := 0.
Definition STAKED : N := 1.
Definition SETTLED : N := 2.
Definition REFUNDED : N := 3.

(** [struct Match]. *)
Module Match.
Record t : Type := mk {
  id : N;
  p1 : N;
  p2 : N;
  stake : N;
  status : N;
  p1Staked : bool;
  p2Staked : bool;
  startTime : N
}.

(** The value a Solidity mapping holds at a key never written. *)
Definition zero : t := mk 0 0 0 0 0 false false 0.

Definition set_status (v : N) (m : t) : t :=
  mk (id m) (p1 m) (p2 m) (stake m) v (p1Staked m) (p2Staked m) (startTime m).
Definition set_p1Staked (v : bool) (m : t) : t :=
  mk (id m) (p1 m) (p2 m) (stake m) (status m) v (p2Staked m) (startTime m).
Definition set_p2Staked (v : bool) (m : t) : t :=
  mk (id m) (p1 m) (p2 m) (stake m) (status m) (p1Staked m) v (startTime m).
Definition set_startTime (v : N) (m : t) : t :=
  mk (id m) (p1 m) (p2 m) (stake m) (status m) (p1Staked m) (p2Staked m) v.
End Match.

(** The events of PlayGame and of TokenStore. *)
Inductive Event : Type :=
| MatchCreated (matchId p1 p2 stake : N)
| Staked (matchId player stake : N)
| Settled (matchId winner amount : N)
| Refunded (matchId player amount : N)
| Purchase (buyer usdtAmount gtOut : N)
| GtPerUsdtUpdated (oldRate newRate : N).

(** The chain state PlayGame works on: its own [matches] mapping, the state
    of the GameToken contract it calls, and the event log it appends to. *)
Record State : Type := mkState {
  matches : gmap N Match.t;
  gameToken : Token;
  events : list Event
}.

(** [matches[matchId]]: the stored record, or the all-zero record. *)
Definition matchAt (matchId : N) (s : State) : Match.t :=
  default Match.zero (matches s !! matchId).

(** A write through the storage pointer [matchData]. *)
Definition store (matchId : N) (f : Match.t → Match.t) : M State unit :=
  modify (λ s, mkState (<[matchId := f (matchAt matchId s)]> (matches s))
                       (gameToken s) (events s)).

Definition emit (e : Event) : M State unit :=
  modify (λ s, mkState (matches s) (gameToken s) (events s ++ [e])).

(** An external call into the token contract: a revert there bubbles up. *)
Definition call_token {A} (c : M Token A) : M State A :=
  λ s, match c (gameToken s) with
       | Ok (a, t') => Ok (a, mkState (matches s) t' (events s))
       | Revert msg => Revert msg
       | Panic code => Panic code
       end.

Section PlayGame.

(** [address(this)], the owner of Ownable, and the two immutables.  The
    [nonReentrant] guard of [stake] and [refund] is not written out:
    GameToken calls nothing back, so the guard never fires. *)
Variables (self owner operator timeout : N).

Definition createMatch (sender matchId p1 p2 stake : N) : M State unit :=
  require (sender =? owner) "Ownable: caller is not the owner" ;;
  require (negb (matchId =? 0)) "Invalid match ID" ;;
  require (negb (p1 =? 0) && negb (p2 =? 0)) "Invalid player addresses" ;;
  require (negb (p1 =? p2)) "Players must be different" ;;
  require (0 <? stake) "Stake must be greater than 0" ;;
  existing ← gets (matchAt matchId);
  require (Match.id existing =? 0) "Match already exists" ;;
  store matchId (λ _, Match.mk matchId p1 p2 stake CREATED false false 0) ;;
  emit (MatchCreated matchId p1 p2 stake).

Definition stake (sender now matchId : N) : M State unit :=
  matchData ← gets (matchAt matchId);
  require (negb (Match.id matchData =? 0)) "Match does not exist" ;;
  require (Match.status matchData =? CREATED) "Match not in created status" ;;
  require ((sender =? Match.p1 matchData) || (sender =? Match.p2 matchData))
          "Not a player in this match" ;;
  let isP1 := sender =? Match.p1 matchData in
  require (negb (if isP1 then Match.p1Staked matchData
                 else Match.p2Staked matchData)) "Already staked" ;;
  (if isP1 then store matchId (Match.set_p1Staked true)
   else store matchId (Match.set_p2Staked true)) ;;
  matchData ← gets (matchAt matchId);
  (if Match.p1Staked matchData && Match.p2Staked matchData then
     store matchId (Match.set_status STAKED) ;;
     store matchId (Match.set_startTime now)
   else ret tt) ;;
  matchData ← gets (matchAt matchId);
  ok ← call_token (GameToken.transferFrom self sender self (Match.stake matchData));
  require ok "GT transfer failed" ;;
  emit (Staked matchId sender (Match.stake matchData)).

Definition commitResult (sender matchId winner : N) : M State unit :=
  require (sender =? operator) "Only operator can commit results" ;;
  matchData ← gets (matchAt matchId);
  require (negb (Match.id matchData =? 0)) "Match does not exist" ;;
  require (Match.status matchData =? STAKED) "Match not staked" ;;
  require ((winner =? Match.p1 matchData) || (winner =? Match.p2 matchData))
          "Winner must be a player" ;;
  store matchId (Match.set_status SETTLED) ;;
  matchData ← gets (matchAt matchId);
  payout ← checked_mul (Match.stake matchData) 2;
  ok ← call_token (GameToken.transfer self winner payout);
  require ok "GT transfer failed" ;;
  emit (Settled matchId winner payout).

Definition refund (now matchId : N) : M State unit :=
  matchData ← gets (matchAt matchId);
  require (negb (Match.id matchData =? 0)) "Match does not exist" ;;
  require (Match.status matchData =? STAKED) "Match not staked" ;;
  deadline ← checked_add (Match.startTime matchData) timeout;
  require (deadline <=? now) "Timeout not reached" ;;
  store matchId (Match.set_status REFUNDED) ;;
  matchData ← gets (matchAt matchId);
  (if Match.p1Staked matchData then
     ok ← call_token (GameToken.transfer self (Match.p1 matchData)
                                         (Match.stake matchData));
     require ok "GT transfer failed" ;;
     emit (Refunded matchId (Match.p1 matchData) (Match.stake matchData))
   else ret tt) ;;
  (if Match.p2Staked matchData then
     ok ← call_token (GameToken.transfer self (Match.p2 matchData)
                                         (Match.stake matchData));
     require ok "GT transfer failed" ;;
     emit (Refunded matchId (Match.p2 matchData) (Match.stake matchData))
   else ret tt).

(** The view functions. *)
Definition getMatch (matchId : N) : M State Match.t :=
  gets (matchAt matchId).

Definition canRefund (now matchId : N) : M State bool :=
  matchData ← gets (matchAt matchId);
  if negb (Match.id matchData =? 0) then
    if Match.status matchData =? STAKED then
      deadline ← checked_add (Match.startTime matchData) timeout;
      ret (deadline <=? now)
    else ret false
  else ret false.

Definition getGTBalance : M State N :=
  gets (λ s, balanceOf (gameToken s) self).

(** *** Transactions *)

(** A call to one of the four state-changing functions, with its
    [msg.sender] where the function reads it. *)
Inductive Call : Type :=
| CreateMatch (sender matchId p1 p2 stake : N)
| Stake (sender matchId : N)
| CommitResult (sender matchId winner : N)
| Refund (sender matchId : N).

Definition call_id (c : Call) : N :=
  match c with
  | CreateMatch _ i _ _ _ | Stake _ i | CommitResult _ i _ | Refund _ i => i
  end.

Definition call_sender (c : Call) : N :=
  match c with
  | CreateMatch a _ _ _ _ | Stake a _ | CommitResult a _ _ | Refund a _ => a
  end.

(** The body run by a call in a block with timestamp [now]. *)
Definition exec (now : N) (c : Call) : M State unit :=
  match c with
  | CreateMatch sender i a b st => createMatch sender i a b st
  | Stake sender i => stake sender now i
  | CommitResult sender i w => commitResult sender i w
  | Refund _ i => refund now i
  end.

(** A transaction: the state after the call, which is the state before it
    when the call reverts. *)
Definition step (now : N) (c : Call) (s : State) : State :=
  match exec now c s with
  | Ok (_, s') => s'
  | _ => s
  end.

Definition succeeds (now : N) (c : Call) (s : State) : bool :=
  match exec now c s with Ok _ => true | _ => false end.

(** A history: calls with the timestamps of their blocks, oldest first. *)
Fixpoint run (tr : list (N * Call)) (s : State) : State :=
  match tr with
  | [] => s
  | (now, c) :: tr' => run tr' (step now c s)
  end.

(** *** Notions used to state the properties *)

(** The state right after deployment: no match stored, nothing logged. *)
Definition deployed (t : Token) : State := mkState ∅ t [].

(** The token balance the contract holds. *)
Definition held (s : State) : N := balanceOf (gameToken s) self.

(** The custody of a match over a history: what the calls on that match
    id moved into the contract minus what they moved out of it. *)
Fixpoint custody (matchId : N) (tr : list (N * Call)) (s : State) : Z :=
  match tr with
  | [] => 0%Z
  | (now, c) :: tr' =>
      let moved :=
        if call_id c =? matchId
        then (Z.of_N (held (step now c s)) - Z.of_N (held s))%Z
        else 0%Z in
      (moved + custody matchId tr' (step now c s))%Z
  end.

(** Whether some [createMatch] call for [matchId] went through. *)
Fixpoint created (matchId : N) (tr : list (N * Call)) (s : State) : bool :=
  match tr with
  | [] => false
  | (now, c) :: tr' =>
      match c with
      | CreateMatch _ i _ _ _ => (i =? matchId) && succeeds now c s
      | _ => false
      end || created matchId tr' (step now c s)
  end.

End PlayGame.

(* ===================================================================== *)
(** ** TokenStore (contracts/TokenStore.sol) and MockUSDT                 *)
(* ===================================================================== *)

(** MockUSDT is a plain ERC-20 with an owner-only [mint]; its constructor
    mints one million USDT (6 decimals) to the deployer. *)
Module MockUSDT.

Definition constructor (deployer : N) : Token :=
  mkToken {[deployer := 1000000 * 10 ^ 6]} ∅ (1000000 * 10 ^ 6) false ∅ ∅.

Definition mint (tokenOwner sender to amount : N) : M Token unit :=
  require (sender =? tokenOwner) "Ownable: caller is not the owner" ;;
  ERC20._mint to amount.

Definition decimals : N := 6.

End MockUSDT.

(** The chain state TokenStore works on: the two token contracts it calls,
    its conversion rate and the events it emitted. *)
Record StoreState : Type := mkStore {
  usdt : Token;
  storeToken : Token;
  gtPerUsdt : N;
  storeEvents : list Event
}.

Definition call_usdt {A} (c : M Token A) : M StoreState A :=
  λ s, match c (usdt s) with
       | Ok (a, t') => Ok (a, mkStore t' (storeToken s) (gtPerUsdt s) (storeEvents s))
       | Revert msg => Revert msg
       | Panic code => Panic code
       end.

Definition call_gameToken {A} (c : M Token A) : M StoreState A :=
  λ s, match c (storeToken s) with
       | Ok (a, t') => Ok (a, mkStore (usdt s) t' (gtPerUsdt s) (storeEvents s))
       | Revert msg => Revert msg
       | Panic code => Panic code
       end.

Definition store_emit (e : Event) : M StoreState unit :=
  modify (λ s, mkStore (usdt s) (storeToken s) (gtPerUsdt s) (storeEvents s ++ [e])).

Section TokenStore.

(** [address(this)] and the owner of Ownable. *)
Variables (self owner : N).

Definition store_constructor (usdt0 gameToken0 : Token) (_gtPerUsdt : N) : StoreState :=
  mkStore usdt0 gameToken0 _gtPerUsdt [].

Definition buy (sender usdtAmount : N) : M StoreState unit :=
  require (0 <? usdtAmount) "Amount must be greater than 0" ;;
  rate ← gets gtPerUsdt;
  product ← checked_mul usdtAmount rate;
  let gtOut := product / 1000000 in
  require (0 <? gtOut) "GT output must be greater than 0" ;;
  call_gameToken (GameToken.mint self sender gtOut) ;;
  ok ← call_usdt (ERC20.transferFrom self sender self usdtAmount);
  require ok "USDT transfer failed" ;;
  store_emit (Purchase sender usdtAmount gtOut).

Definition withdrawUSDT (sender to amount : N) : M StoreState unit :=
  require (sender =? owner) "Ownable: caller is not the owner" ;;
  require (negb (to =? 0)) "Invalid recipient" ;;
  require (0 <? amount) "Amount must be greater than 0" ;;
  bal ← gets (λ s, balanceOf (usdt s) self);
  require (amount <=? bal) "Insufficient USDT balance" ;;
  ok ← call_usdt (ERC20.transfer self to amount);
  require ok "USDT transfer failed".

Definition updateGtPerUsdt (sender newGtPerUsdt : N) : M StoreState unit :=
  require (sender =? owner) "Ownable: caller is not the owner" ;;
  require (0 <? newGtPerUsdt) "Rate must be greater than 0" ;;
  oldRate ← gets gtPerUsdt;
  modify (λ s, mkStore (usdt s) (storeToken s) newGtPerUsdt (storeEvents s)) ;;
  store_emit (GtPerUsdtUpdated oldRate newGtPerUsdt).

Definition getUSDTBalance : M StoreState N :=
  gets (λ s, balanceOf (usdt s) self).

End TokenStore.

(** The number of players whose staked flag is set. *)
Definition stakedCount (m : Match.t) : N :=
  (if Match.p1Staked m then 1 else 0) + (if Match.p2Staked m then 1 else 0).

(** The moves of the status field the lifecycle allows in one call. *)
Definition status_step (a b : N) : Prop :=
  a = b ∨ (a = CREATED ∧ b = STAKED) ∨
  (a = STAKED ∧ (b = SETTLED ∨ b = REFUNDED)).

(** What the contract owes on a match: the stakes paid in while the match
    is open, nothing once it is settled or refunded. *)
Definition escrow_of (m : Match.t) : N :=
  if Match.status m <=? STAKED then Match.stake m * stakedCount m else 0.

(** The sum of a quantity over the values of a finite map. *)
Definition map_sum {K A} `{Countable K} (f : A → N) (m : gmap K A) : N :=
  map_fold (λ _ v acc, f v + acc) 0 m.

(** The token keeps the balances adding up to [totalSupply], which fits a
    uint256: [_mint] is the only function that creates tokens. *)
Definition token_wf (t : Token) : Prop :=
  map_sum (λ v, v) (balances t) = totalSupply t ∧ totalSupply t ≤ MAX_UINT256.

(** The shape of the records [createMatch], [stake], [commitResult] and
    [refund] leave under key [k] of the [matches] mapping of the contract
    at address [self]. *)
Definition match_ok (self k : N) (m : Match.t) : Prop :=
  Match.id m = k ∧ k ≠ 0 ∧
  Match.p1 m ≠ 0 ∧ Match.p2 m ≠ 0 ∧ Match.p1 m ≠ Match.p2 m ∧
  0 < Match.stake m ∧ Match.status m ≤ REFUNDED ∧
  (Match.status m = CREATED →
     Match.startTime m = 0 ∧
     ¬ (Match.p1Staked m = true ∧ Match.p2Staked m = true)) ∧
  (Match.status m ≠ CREATED →
     Match.p1Staked m = true ∧ Match.p2Staked m = true) ∧
  (Match.p1Staked m = true → Match.p1 m ≠ self) ∧
  (Match.p2Staked m = true → Match.p2 m ≠ self).

Definition state_wf (self : N) (s : State) : Prop :=
  map_Forall (match_ok self) (matches s).

(** The contract holds at least what it owes on all matches together. *)
Definition solvent (self : N) (s : State) : Prop :=
  map_sum escrow_of (matches s) ≤ held self s.

(** The Settled events the log holds for a match id. *)
Definition settled_for (matchId : N) (e : Event) : bool :=
  match e with
  | Settled i _ _ => i =? matchId
  | _ => false
  end.

Definition settled_count (matchId : N) (s : State) : nat :=
  length (filter (λ e, settled_for matchId e = true) (events s)).

(* ===================================================================== *)
(** ** The leaderboard indexer (tools/leaderboard.js)                     *)
(* ===================================================================== *)

(** The SQLite tables are lists of rows in rowid order.  Columns keep the
    source's names.  Amounts reach SQLite as decimal text and are cast back
    to numbers there; the model keeps the number, which is what SQLite
    computes as long as totals stay within its 64-bit integers.
    [CURRENT_TIMESTAMP] is the [clock] argument of the operations. *)
Module Leaderboard.

Record PlayerRow : Type := mkPlayer {
  address : string;
  wins : N;
  total_gt_won : N;
  matches_played : N;
  last_updated : N
}.

Record EventRow : Type := mkEventRow {
  ev_id : N;
  event_type : string;
  ev_address : string;
  amount : N;
  match_id : option N;
  block_number : N;
  transaction_hash : string;
  timestamp : N
}.

Record Db : Type := mkDb {
  players : list PlayerRow;
  events : list EventRow
}.

(** The fields the handlers read from the ethers event payload. *)
Record EventLog : Type := mkEventLog {
  blockNumber : N;
  transactionHash : string
}.

(** [CREATE TABLE IF NOT EXISTS] on a fresh database file. *)
Definition setupDatabase : Db := mkDb [] [].

(** [String.prototype.toLowerCase] on the ASCII text of an address. *)
Definition lower_ascii (c : ascii) : ascii :=
  let n := nat_of_ascii c in
  if ((65 <=? n) && (n <=? 90))%nat then ascii_of_nat (n + 32) else c.

Fixpoint toLowerCase (s : string) : string :=
  match s with
  | EmptyString => EmptyString
  | String c r => String (lower_ascii c) (toLowerCase r)
  end.

(** [INSERT INTO events ...]: the id is the AUTOINCREMENT rowid. *)
Definition logEvent (eventType addr : string) (amt : N) (matchId : option N)
    (blockNo : N) (txHash : string) (clock : N) (db : Db) : Db :=
  mkDb (players db)
       (events db ++
        [mkEventRow (N.of_nat (length (events db)) + 1) eventType addr amt
                    matchId blockNo txHash clock]).

(** [INSERT ... ON CONFLICT(address) DO UPDATE SET ...] on the rows. *)
Fixpoint upsert (addr : string) (winsToAdd gtWonToAdd matchesToAdd clock : N)
    (rows : list PlayerRow) : list PlayerRow :=
  match rows with
  | [] => [mkPlayer addr winsToAdd gtWonToAdd matchesToAdd clock]
  | r :: rest =>
      if String.eqb (address r) addr
      then mkPlayer (address r) (wins r + winsToAdd)
                    (total_gt_won r + gtWonToAdd)
                    (matches_played r + matchesToAdd) clock :: rest
      else r :: upsert addr winsToAdd gtWonToAdd matchesToAdd clock rest
  end.

Definition updatePlayerStats (addr : string)
    (winsToAdd gtWonToAdd matchesToAdd clock : N) (db : Db) : Db :=
  mkDb (upsert addr winsToAdd gtWonToAdd matchesToAdd clock (players db))
       (events db).

Definition handlePurchaseEvent (buyer : string) (usdtAmount gtOut : N)
    (event : EventLog) (clock : N) (db : Db) : Db :=
  let addr := toLowerCase buyer in
  let db := logEvent "Purchase" addr gtOut None (blockNumber event)
                     (transactionHash event) clock db in
  updatePlayerStats addr 0 0 0 clock db.

Definition handleMatchCreatedEvent (matchId : N) (p1 p2 : string) (stake : N)
    (event : EventLog) (clock : N) (db : Db) : Db :=
  let db := logEvent "MatchCreated" (toLowerCase p1) stake (Some matchId)
                     (blockNumber event) (transactionHash event) clock db in
  let db := logEvent "MatchCreated" (toLowerCase p2) stake (Some matchId)
                     (blockNumber event) (transactionHash event) clock db in
  let db := updatePlayerStats (toLowerCase p1) 0 0 0 clock db in
  updatePlayerStats (toLowerCase p2) 0 0 0 clock db.

Definition handleStakedEvent (matchId : N) (player : string) (stake : N)
    (event : EventLog) (clock : N) (db : Db) : Db :=
  let addr := toLowerCase player in
  logEvent "Staked" addr stake (Some matchId) (blockNumber event)
           (transactionHash event) clock db.

Definition handleSettledEvent (matchId : N) (winner : string) (amt : N)
    (event : EventLog) (clock : N) (db : Db) : Db :=
  let addr := toLowerCase winner in
  let db := logEvent "Settled" addr amt (Some matchId) (blockNumber event)
                     (transactionHash event) clock db in
  updatePlayerStats addr 1 amt 1 clock db.

Definition handleRefundedEvent (matchId : N) (player : string) (amt : N)
    (event : EventLog) (clock : N) (db : Db) : Db :=
  let addr := toLowerCase player in
  let db := logEvent "Refunded" addr amt (Some matchId) (blockNumber event)
                     (transactionHash event) clock db in
  updatePlayerStats addr 0 0 1 clock db.

(** [ORDER BY CAST(total_gt_won AS DECIMAL) DESC, wins DESC]: row [a] may
    come before row [b]. *)
Definition ranks_before (a b : PlayerRow) : Prop :=
  total_gt_won b < total_gt_won a ∨
  (total_gt_won a = total_gt_won b ∧ wins b ≤ wins a).

#[global] Instance ranks_before_dec a b : Decision (ranks_before a b).
Proof. unfold ranks_before. apply _. Defined.




Definition getPlayerStats (addr : string) (db : Db) : option PlayerRow :=
  find (λ r, String.eqb (address r) (toLowerCase addr)) (players db).

Definition getEventCount (db : Db) : nat := length (events db).
Definition getPlayerCount (db : Db) : nat := length (players db).

(** What the listeners of [startIndexing] receive: an event of one of the
    two contracts with its payload, and the time it is handled at. *)
Inductive Delivery : Type :=
| GotPurchase (buyer : string) (usdtAmount gtOut : N)
| GotMatchCreated (matchId : N) (p1 p2 : string) (stake : N)
| GotStaked (matchId : N) (player : string) (stake : N)
| GotSettled (matchId : N) (winner : string) (amt : N)
| GotRefunded (matchId : N) (player : string) (amt : N).

(** The listener registered for each event name. *)
Definition dispatch (d : Delivery) (event : EventLog) (clock : N) (db : Db) : Db :=
  match d with
  | GotPurchase buyer usdtAmount gtOut =>
      handlePurchaseEvent buyer usdtAmount gtOut event clock db
  | GotMatchCreated matchId p1 p2 stake =>
      handleMatchCreatedEvent matchId p1 p2 stake event clock db
  | GotStaked matchId player stake =>
      handleStakedEvent matchId player stake event clock db
  | GotSettled matchId winner amt =>
      handleSettledEvent matchId winner amt event clock db
  | GotRefunded matchId player amt =>
      handleRefundedEvent matchId player amt event clock db
  end.

(** The indexer fed a sequence of deliveries, oldest first. *)
Fixpoint replay (ds : list (Delivery * EventLog * N)) (db : Db) : Db :=
  match ds with
  | [] => db
  | (d, event, clock) :: ds' => replay ds' (dispatch d event clock db)
  end.







(** The number of rows a delivery adds to the events table. *)
Definition logged (d : Delivery) : nat :=
  match d with
  | GotMatchCreated _ _ _ _ => 2
  | _ => 1
  end.

End Leaderboard.

(* ===================================================================== *)
(** ** A concrete deployment used in the examples                         *)
(* ===================================================================== *)

(** The contract at address 99, owner 1, operator 2, a timeout of 50
    seconds; players 10 and 11 hold 1000 tokens each and have approved the
    contract for 100. *)
Module Scenario.

Definition token0 : Token :=
  mkToken (<[10 := 1000]> (<[11 := 1000]> ∅))
          (<[(10, 99) := 100]> (<[(11, 99) := 100]> ∅))
          2000 false {[1]} {[1]}.

Definition fresh : State := deployed token0.

Definition Step := step 99 1 2 50.
Definition Run := run 99 1 2 50.

(** Match 7 between 10 and 11 for a stake of 100, created at time 5. *)
Definition opened : State := Run [(5, CreateMatch 1 7 10 11 100)] fresh.
(** Player 10 staked at time 6. *)
Definition half : State := Run [(6, Stake 10 7)] opened.
(** Player 11 staked at time 7. *)
Definition full : State := Run [(7, Stake 11 7)] half.
(** The operator declared 10 the winner at time 8. *)
Definition settled : State := Run [(8, CommitResult 2 7 10)] full.

Definition history : list (N * Call) :=
  [(5, CreateMatch 1 7 10 11 100); (6, Stake 10 7); (7, Stake 11 7);
   (8, CommitResult 2 7 10)].

(** The same token with transfers paused. *)
Definition paused_token : Token := set_paused true token0.
Definition half_paused : State :=
  mkState (matches opened) paused_token (events opened).

(** Player 10 sends 30 tokens to player 11; the contract pulls the 100
    tokens player 10 approved. *)
Definition after_transfer : Token :=
  match GameToken.transfer 10 11 30 token0 with
  | Ok (_, t') => t'
  | _ => token0
  end.
Definition after_pull : Token :=
  match GameToken.transferFrom 99 10 99 100 token0 with
  | Ok (_, t') => t'
  | _ => token0
  end.

(** A store at address 50 owned by 1, selling 1 GT per USDT; buyer 20
    holds 5 USDT and has approved the store for them. *)
Definition usdt0 : Token :=
  mkToken {[20 := 5000000]} {[(20, 50) := 5000000]} 5000000 false ∅ ∅.
Definition gt0 : Token := add_minter 50 (GameToken.constructor 1).
Definition store0 : StoreState := store_constructor usdt0 gt0 (10 ^ 18).
(** The buyer bought for 2 USDT. *)
Definition store1 : StoreState :=
  match buy 50 20 2000000 store0 with
  | Ok (_, s') => s'
  | _ => store0
  end.

Import Leaderboard.
Definition carol : PlayerRow := mkPlayer "0xcc" 3 500 4 0.
Definition receipt : EventLog := mkEventLog 3 "0xfeed".
Definition deliveries : list (Delivery * EventLog * N) :=
  [(GotMatchCreated 7 "0xAA" "0xBB" 100, receipt, 5);
   (GotStaked 7 "0xAA" 100, receipt, 6);
   (GotSettled 7 "0xAA" 200, receipt, 8);
   (GotRefunded 8 "0xBB" 50, receipt, 9)].

End Scenario.

(* ===================================================================== *)
(** * Properties                                                          *)
(* ===================================================================== *)

Ltac munfold :=
  unfold mbind, M_bind, bind, mret, M_ret, ret, gets, modify, require,
         checked_add, checked_mul.

(** ** The token *)

(** The token state after [_transfer] went through. *)
Lemma ERC20_transfer_eq from to amount t :
  ERC20._transfer from to amount t =
  if from =? 0 then Revert "ERC20: transfer from the zero address"
  else if to =? 0 then Revert "ERC20: transfer to the zero address"
  else if amount <=? balanceOf t from
       then Ok (tt, set_balance to
                      ((balanceOf (set_balance from (balanceOf t from - amount) t) to
                        + amount) mod 2 ^ 256)
                      (set_balance from (balanceOf t from - amount) t))
       else Revert "ERC20: transfer amount exceeds balance".
Proof.
  unfold ERC20._transfer. munfold.
  destruct (from =? 0); simpl; [done|].
  destruct (to =? 0); simpl; [done|].
  destruct (amount <=? balanceOf t from); done.
Qed.

Lemma balanceOf_set_balance a v t x :
  balanceOf (set_balance a v t) x = if decide (a = x) then v else balanceOf t x.
Proof.
  unfold balanceOf, set_balance. simpl. rewrite lookup_insert.
  by destruct (decide (a = x)).
Qed.

Lemma paused_set_balance a v t : paused (set_balance a v t) = paused t.
Proof. done. Qed.

(** A token call never returns [false]: it returns [true] or reverts. *)
Lemma transfer_never_false sender to amount t t' :
  GameToken.transfer sender to amount t ≠ Ok (false, t').
Proof.
  unfold GameToken.transfer, GameToken.whenNotPaused, ERC20.transfer. munfold.
  destruct (paused t); simpl; [done|].
  rewrite ERC20_transfer_eq.
  destruct (sender =? 0); [done|]. destruct (to =? 0); [done|].
  destruct (amount <=? balanceOf t sender); done.
Qed.

(** What a successful [transfer] does to the balances. *)
Lemma transfer_Ok sender to amount t b t' :
  GameToken.transfer sender to amount t = Ok (b, t') →
  b = true ∧ paused t = false ∧ sender ≠ 0 ∧ to ≠ 0 ∧
  amount ≤ balanceOf t sender ∧ paused t' = false ∧
  (∀ x, balanceOf t' x =
        if decide (to = x)
        then ((if decide (sender = x) then balanceOf t sender - amount
               else balanceOf t x) + amount) mod 2 ^ 256
        else if decide (sender = x) then balanceOf t sender - amount
             else balanceOf t x).
Proof.
  unfold GameToken.transfer, GameToken.whenNotPaused, ERC20.transfer. munfold.
  destruct (paused t) eqn:Hp; simpl; [done|].
  rewrite ERC20_transfer_eq.
  destruct (N.eqb_spec sender 0); [done|]. destruct (N.eqb_spec to 0); [done|].
  destruct (N.leb_spec amount (balanceOf t sender)); [|done].
  intros [= <- <-]. repeat split; try done.
  intros x. rewrite !balanceOf_set_balance.
  destruct (decide (to = x)); [|done].
  subst. by destruct (decide (sender = x)).
Qed.

(** [transfer] goes through exactly when the token is not paused, neither
    party is the zero address and the sender's balance covers the amount. *)
Lemma transfer_succeeds sender to amount t :
  paused t = false → sender ≠ 0 → to ≠ 0 → amount ≤ balanceOf t sender →
  ∃ t', GameToken.transfer sender to amount t = Ok (true, t').
Proof.
  intros Hp Hs Ht Hb.
  unfold GameToken.transfer, GameToken.whenNotPaused, ERC20.transfer. munfold.
  rewrite Hp. simpl. rewrite ERC20_transfer_eq.
  destruct (N.eqb_spec sender 0); [done|]. destruct (N.eqb_spec to 0); [done|].
  destruct (N.leb_spec amount (balanceOf t sender)); [|lia]. eauto.
Qed.

Lemma spendAllowance_eq owner spender amount t :
  ERC20._spendAllowance owner spender amount t =
  if allowance t owner spender =? MAX_UINT256 then Ok (tt, t)
  else if amount <=? allowance t owner spender then
    if owner =? 0 then Revert "ERC20: approve from the zero address"
    else if spender =? 0 then Revert "ERC20: approve to the zero address"
    else Ok (tt, set_allowance owner spender
                   (allowance t owner spender - amount) t)
  else Revert "ERC20: insufficient allowance".
Proof.
  unfold ERC20._spendAllowance, ERC20._approve. munfold.
  destruct (allowance t owner spender =? MAX_UINT256); simpl; [done|].
  destruct (amount <=? allowance t owner spender); simpl; [|done].
  destruct (owner =? 0); simpl; [done|].
  destruct (spender =? 0); done.
Qed.

(** What a successful [transferFrom] does to the balances. *)
Lemma transferFrom_Ok spender from to amount t b t' :
  GameToken.transferFrom spender from to amount t = Ok (b, t') →
  b = true ∧ paused t = false ∧ from ≠ 0 ∧ to ≠ 0 ∧
  amount ≤ balanceOf t from ∧ paused t' = false ∧
  (allowance t from spender = MAX_UINT256 ∨ amount ≤ allowance t from spender) ∧
  (∀ x, balanceOf t' x =
        if decide (to = x)
        then ((if decide (from = x) then balanceOf t from - amount
               else balanceOf t x) + amount) mod 2 ^ 256
        else if decide (from = x) then balanceOf t from - amount
             else balanceOf t x).
Proof.
  unfold GameToken.transferFrom, GameToken.whenNotPaused, ERC20.transferFrom.
  munfold.
  destruct (paused t) eqn:Hp; simpl; [done|].
  rewrite spendAllowance_eq.
  assert (Hgo : ∀ t1, paused t1 = false →
            (∀ x, balanceOf t1 x = balanceOf t x) →
            match ERC20._transfer from to amount t1 with
            | Ok (_, s') => Ok (true, s')
            | Revert msg => Revert msg
            | Panic c => Panic c
            end = Ok (b, t') →
            b = true ∧ from ≠ 0 ∧ to ≠ 0 ∧ amount ≤ balanceOf t from ∧
            paused t' = false ∧
            ∀ x, balanceOf t' x =
              if decide (to = x)
              then ((if decide (from = x) then balanceOf t from - amount
                     else balanceOf t x) + amount) mod 2 ^ 256
              else if decide (from = x) then balanceOf t from - amount
                   else balanceOf t x).
  { intros t1 Hp1 Hb1. rewrite ERC20_transfer_eq.
    destruct (N.eqb_spec from 0); [done|]. destruct (N.eqb_spec to 0); [done|].
    rewrite Hb1.
    destruct (N.leb_spec amount (balanceOf t from)); [|done].
    intros [= <- <-]. repeat split; try done.
    intros x. rewrite !balanceOf_set_balance, !Hb1.
    destruct (decide (to = x)); [|done].
    subst. by destruct (decide (from = x)). }
  destruct (N.eqb_spec (allowance t from spender) MAX_UINT256) as [Ha|Ha].
  { intros Hr. apply Hgo in Hr; [|done..].
    destruct Hr as (? & ? & ? & ? & ? & ?). repeat split; auto. }
  destruct (N.leb_spec amount (allowance t from spender)); [|done].
  destruct (from =? 0); [done|]. destruct (spender =? 0); [done|].
  intros Hr. apply Hgo in Hr; [|done..].
  destruct Hr as (? & ? & ? & ? & ? & ?). repeat split; auto.
Qed.

Lemma transferFrom_succeeds spender from to amount t :
  paused t = false → spender ≠ 0 → from ≠ 0 → to ≠ 0 →
  amount ≤ allowance t from spender → amount ≤ balanceOf t from →
  ∃ t', GameToken.transferFrom spender from to amount t = Ok (true, t').
Proof.
  intros Hp Hs Hf Ht Ha Hb.
  unfold GameToken.transferFrom, GameToken.whenNotPaused, ERC20.transferFrom.
  munfold. rewrite Hp. simpl. rewrite spendAllowance_eq.
  destruct (allowance t from spender =? MAX_UINT256).
  - rewrite ERC20_transfer_eq.
    destruct (N.eqb_spec from 0); [done|]. destruct (N.eqb_spec to 0); [done|].
    destruct (N.leb_spec amount (balanceOf t from)); [|lia]. eauto.
  - destruct (N.leb_spec amount (allowance t from spender)); [|lia].
    destruct (N.eqb_spec from 0); [done|].
    destruct (N.eqb_spec spender 0); [done|].
    rewrite ERC20_transfer_eq.
    destruct (N.eqb_spec from 0); [done|]. destruct (N.eqb_spec to 0); [done|].
    change (balanceOf (set_allowance from spender
              (allowance t from spender - amount) t) from)
      with (balanceOf t from).
    destruct (N.leb_spec amount (balanceOf t from)); [|lia]. eauto.
Qed.


(** ** Sums over finite maps and the supply of the token *)

Section map_sum.
Context {K A : Type} `{Countable K} (f : A → N).

Lemma map_sum_empty : map_sum f (∅ : gmap K A) = 0.
Proof. unfold map_sum. apply map_fold_empty. Qed.

Lemma map_sum_insert_None (m : gmap K A) k v :
  m !! k = None → map_sum f (<[k := v]> m) = f v + map_sum f m.
Proof.
  intros Hk. unfold map_sum. rewrite map_fold_insert_L; [done| |done].
  intros. lia.
Qed.

Lemma map_sum_delete (m : gmap K A) k v :
  m !! k = Some v → map_sum f m = f v + map_sum f (delete k m).
Proof.
  intros Hk. unfold map_sum. erewrite map_fold_delete_L; [done| |done].
  intros. lia.
Qed.

(** Overwriting a key trades the old value's share for the new one's. *)
Lemma map_sum_insert (m : gmap K A) k v :
  map_sum f (<[k := v]> m) + from_option f 0 (m !! k) = f v + map_sum f m.
Proof.
  destruct (m !! k) as [w|] eqn:Hk; simpl.
  - rewrite <- insert_delete_eq.
    rewrite map_sum_insert_None by apply lookup_delete_eq.
    rewrite (map_sum_delete m k w) by done. lia.
  - rewrite map_sum_insert_None by done. lia.
Qed.

Lemma map_sum_lookup_le (m : gmap K A) k :
  from_option f 0 (m !! k) ≤ map_sum f m.
Proof.
  destruct (m !! k) as [w|] eqn:Hk; simpl; [|lia].
  rewrite (map_sum_delete m k w) by done. lia.
Qed.

Lemma map_sum_lookup2_le (m : gmap K A) k1 k2 :
  k1 ≠ k2 →
  from_option f 0 (m !! k1) + from_option f 0 (m !! k2) ≤ map_sum f m.
Proof.
  intros Hne. destruct (m !! k1) as [w|] eqn:Hk; simpl.
  - rewrite (map_sum_delete m k1 w) by done.
    pose proof (map_sum_lookup_le (delete k1 m) k2) as Hle.
    rewrite lookup_delete_ne in Hle by done. lia.
  - apply map_sum_lookup_le.
Qed.
End map_sum.

Lemma balanceOf_from_option t a :
  balanceOf t a = from_option (λ v, v) 0 (balances t !! a).
Proof. unfold balanceOf. by destruct (balances t !! a). Qed.

(** With a supply that fits a uint256, the unchecked addition of
    [_transfer] never wraps: the balances move by exactly [amount] and
    still add up to the supply. *)
Lemma ERC20_transfer_wf from to amount t t' :
  token_wf t → ERC20._transfer from to amount t = Ok (tt, t') →
  token_wf t' ∧ paused t' = paused t ∧ amount ≤ balanceOf t from ∧
  from ≠ 0 ∧ to ≠ 0 ∧
  ∀ x, balanceOf t' x =
       (if decide (from = x) then balanceOf t from - amount else balanceOf t x)
       + (if decide (to = x) then amount else 0).
Proof.
  intros [Hsum Hmax]. rewrite ERC20_transfer_eq.
  destruct (N.eqb_spec from 0); [done|]. destruct (N.eqb_spec to 0); [done|].
  destruct (N.leb_spec amount (balanceOf t from)) as [Hle|]; [|done].
  intros [= <-].
  set (t1 := set_balance from (balanceOf t from - amount) t).
  pose proof (map_sum_insert (λ v, v) (balances t) from (balanceOf t from - amount))
    as H1. rewrite <- balanceOf_from_option in H1.
  change (<[from:=balanceOf t from - amount]> (balances t)) with (balances t1) in H1.
  pose proof (map_sum_lookup_le (λ v, v) (balances t1) to) as H2.
  rewrite <- balanceOf_from_option in H2.
  pose proof (map_sum_insert (λ v, v) (balances t1) to
                ((balanceOf t1 to + amount) mod 2 ^ 256)) as H3.
  rewrite <- balanceOf_from_option in H3.
  assert (Hsmall : (balanceOf t1 to + amount) mod 2 ^ 256 = balanceOf t1 to + amount).
  { apply N.mod_small. unfold MAX_UINT256 in Hmax. lia. }
  rewrite Hsmall in *.
  repeat split; try done.
  - simpl.
    change (<[from:=balanceOf t from - amount]> (balances t)) with (balances t1).
    lia.
  - intros x. rewrite balanceOf_set_balance. unfold t1 at 2.
    rewrite balanceOf_set_balance.
    destruct (decide (to = x)) as [->|Hx].
    + unfold t1. rewrite balanceOf_set_balance. done.
    + lia.
Qed.

Lemma transfer_wf sender to amount t b t' :
  token_wf t → GameToken.transfer sender to amount t = Ok (b, t') →
  token_wf t' ∧ paused t' = false ∧ paused t = false ∧
  amount ≤ balanceOf t sender ∧
  ∀ x, balanceOf t' x =
       (if decide (sender = x) then balanceOf t sender - amount else balanceOf t x)
       + (if decide (to = x) then amount else 0).
Proof.
  intros Hwf.
  unfold GameToken.transfer, GameToken.whenNotPaused, ERC20.transfer. munfold.
  destruct (paused t) eqn:Hp; simpl; [done|].
  destruct (ERC20._transfer sender to amount t) as [[[] t1]| |] eqn:He; try done.
  intros [= <- <-].
  apply ERC20_transfer_wf in He as (Hwf' & Hp' & ? & _ & _ & ?); [|done].
  split; [exact Hwf'|]. split; [congruence|]. done.
Qed.

Lemma transferFrom_wf spender from to amount t b t' :
  token_wf t → GameToken.transferFrom spender from to amount t = Ok (b, t') →
  token_wf t' ∧ paused t' = false ∧ paused t = false ∧
  amount ≤ balanceOf t from ∧
  ∀ x, balanceOf t' x =
       (if decide (from = x) then balanceOf t from - amount else balanceOf t x)
       + (if decide (to = x) then amount else 0).
Proof.
  intros Hwf.
  unfold GameToken.transferFrom, GameToken.whenNotPaused, ERC20.transferFrom.
  munfold.
  destruct (paused t) eqn:Hp; simpl; [done|].
  rewrite spendAllowance_eq.
  assert (Hgo : ∀ t1, token_wf t1 → paused t1 = false →
            (∀ x, balanceOf t1 x = balanceOf t x) →
            match ERC20._transfer from to amount t1 with
            | Ok (_, s') => Ok (true, s')
            | Revert msg => Revert msg
            | Panic c => Panic c
            end = Ok (b, t') →
            token_wf t' ∧ paused t' = false ∧ false = false ∧
            amount ≤ balanceOf t from ∧
            ∀ x, balanceOf t' x =
              (if decide (from = x) then balanceOf t from - amount else balanceOf t x)
              + (if decide (to = x) then amount else 0)).
  { intros t1 Hwf1 Hp1 Hb1.
    destruct (ERC20._transfer from to amount t1) as [[[] t2]| |] eqn:He; try done.
    intros [= <- <-].
    apply ERC20_transfer_wf in He as (Hwf' & Hp' & Hle & _ & _ & Hb); [|done].
    split; [exact Hwf'|]. split; [congruence|]. split; [done|].
    split; [by rewrite <- Hb1|].
    intros x. rewrite Hb, !Hb1. done. }
  destruct (allowance t from spender =? MAX_UINT256);
    [intros Hr; by apply (Hgo t)|].
  destruct (amount <=? allowance t from spender); [|done].
  destruct (from =? 0); [done|]. destruct (spender =? 0); [done|].
  intros Hr. by apply (Hgo (set_allowance from spender
                              (allowance t from spender - amount) t)).
Qed.


(** ** GameToken: minting, pausing, transfers *)

Module GameTokenFacts.

Lemma mint_eq sender to amount t :
  GameToken.mint sender to amount t =
  if negb (bool_decide (sender ∈ minters t))
  then Revert "AccessControl: account is missing role"
  else if paused t then Revert "Pausable: paused"
  else if to =? 0 then Revert "ERC20: mint to the zero address"
  else if negb (totalSupply t + amount <=? MAX_UINT256) then Panic 17
  else Ok (tt, set_balance to ((balanceOf t to + amount) mod 2 ^ 256)
                 (set_totalSupply (totalSupply t + amount) t)).
Proof.
  unfold GameToken.mint, GameToken.onlyRole, GameToken.whenNotPaused, ERC20._mint.
  munfold.
  destruct (bool_decide (sender ∈ minters t)); simpl; [|done].
  destruct (paused t); simpl; [done|].
  destruct (to =? 0); simpl; [done|].
  destruct (totalSupply t + amount <=? MAX_UINT256); done.
Qed.

(** X10. A mint by a minter, with the token not paused and room in the supply,
    creates exactly [amount] tokens at [to]: its balance and the total
    supply grow by [amount], no other balance moves, and the balances
    still add up to the supply. *)
Theorem mint_exact (sender to amount : N) (t : Token) :
  token_wf t → sender ∈ minters t → paused t = false → to ≠ 0 →
  totalSupply t + amount ≤ MAX_UINT256 →
  ∃ t', GameToken.mint sender to amount t = Ok (tt, t') ∧
        balanceOf t' to = balanceOf t to + amount ∧
        totalSupply t' = totalSupply t + amount ∧
        (∀ x, x ≠ to → balanceOf t' x = balanceOf t x) ∧
        token_wf t'.
Proof.
  intros [Hsum Hmax] Hm Hp Hto Hroom.
  pose proof (map_sum_lookup_le (λ v, v) (balances t) to) as Hle.
  rewrite <- balanceOf_from_option in Hle.
  assert (Hsmall : (balanceOf t to + amount) mod 2 ^ 256 = balanceOf t to + amount).
  { apply N.mod_small. unfold MAX_UINT256 in *. lia. }
  exists (set_balance to (balanceOf t to + amount)
            (set_totalSupply (totalSupply t + amount) t)).
  split; [|split; [|split; [|split]]].
  - rewrite mint_eq. rewrite bool_decide_eq_true_2 by done. simpl.
    rewrite Hp. destruct (N.eqb_spec to 0); [done|].
    destruct (N.leb_spec (totalSupply t + amount) MAX_UINT256); [|lia].
    simpl. by rewrite Hsmall.
  - by rewrite balanceOf_set_balance, decide_True.
  - done.
  - intros x Hx. by rewrite balanceOf_set_balance, decide_False.
  - split; [|done]. simpl.
    pose proof (map_sum_insert (λ v, v) (balances t) to
                  (balanceOf t to + amount)) as Hi.
    rewrite <- balanceOf_from_option in Hi. lia.
Qed.

(** X11. [mint] is refused to an account without the minter role, while the
    token is paused, and for the zero address; a mint that would take the
    supply past 2^256 - 1 panics. *)
Theorem mint_guarded (sender to amount : N) (t : Token) :
  (sender ∉ minters t →
     GameToken.mint sender to amount t =
     Revert "AccessControl: account is missing role") ∧
  (sender ∈ minters t → paused t = true →
     GameToken.mint sender to amount t = Revert "Pausable: paused") ∧
  (sender ∈ minters t → paused t = false → to = 0 →
     GameToken.mint sender to amount t = Revert "ERC20: mint to the zero address") ∧
  (sender ∈ minters t → paused t = false → to ≠ 0 →
   MAX_UINT256 < totalSupply t + amount →
     GameToken.mint sender to amount t = Panic 17).
Proof.
  rewrite mint_eq. repeat split.
  - intros Hn. by rewrite bool_decide_eq_false_2.
  - intros Hm Hp. rewrite bool_decide_eq_true_2 by done. simpl. by rewrite Hp.
  - intros Hm Hp ->. rewrite bool_decide_eq_true_2 by done. simpl. by rewrite Hp.
  - intros Hm Hp Hto Hov. rewrite bool_decide_eq_true_2 by done. simpl.
    rewrite Hp. destruct (N.eqb_spec to 0); [done|].
    destruct (N.leb_spec (totalSupply t + amount) MAX_UINT256); [lia|done].
Qed.

(** X12. While the token is paused no token moves: [transfer] and
    [transferFrom] revert with "Pausable: paused" for every caller and
    every amount. *)
Theorem paused_blocks_transfers (t : Token) (sender from to amount : N) :
  paused t = true →
  GameToken.transfer sender to amount t = Revert "Pausable: paused" ∧
  GameToken.transferFrom sender from to amount t = Revert "Pausable: paused".
Proof.
  intros Hp.
  unfold GameToken.transfer, GameToken.transferFrom, GameToken.whenNotPaused.
  munfold. by rewrite Hp.
Qed.

(** X13. Only an admin can pause and unpause; pausing a running token and
    unpausing it again gives the token back as it was. *)
Theorem pause_unpause (t : Token) (sender : N) :
  (sender ∉ admins t →
     GameToken.pause sender t = Revert "AccessControl: account is missing role" ∧
     GameToken.unpause sender t = Revert "AccessControl: account is missing role") ∧
  (sender ∈ admins t → paused t = false →
     ∃ t1, GameToken.pause sender t = Ok (tt, t1) ∧ paused t1 = true ∧
           GameToken.unpause sender t1 = Ok (tt, t) ∧
           GameToken.unpause sender t = Revert "Pausable: not paused" ∧
           GameToken.pause sender t1 = Revert "Pausable: paused").
Proof.
  unfold GameToken.pause, GameToken.unpause, GameToken.onlyRole,
    GameToken.whenNotPaused. munfold. split.
  - intros Hn. by rewrite bool_decide_eq_false_2.
  - intros Ha Hp. rewrite bool_decide_eq_true_2 by done. simpl. rewrite Hp.
    simpl. eexists. split; [done|]. simpl.
    rewrite bool_decide_eq_true_2 by done. simpl.
    repeat split. destruct t; simpl in *. by subst.
Qed.

(** X14. A transfer that goes through moves exactly [amount] from the sender
    to the recipient: the supply, every other balance and every allowance
    stay, and the balances still add up to the supply. *)
Theorem transfer_moves_exactly (sender to amount : N) (t t' : Token) (b : bool) :
  token_wf t → GameToken.transfer sender to amount t = Ok (b, t') →
  b = true ∧ token_wf t' ∧ totalSupply t' = totalSupply t ∧
  allowances t' = allowances t ∧
  (sender ≠ to →
     balanceOf t' sender = balanceOf t sender - amount ∧
     balanceOf t' to = balanceOf t to + amount) ∧
  (sender = to → balanceOf t' sender = balanceOf t sender) ∧
  (∀ x, x ≠ sender → x ≠ to → balanceOf t' x = balanceOf t x).
Proof.
  intros Hwf He.
  pose proof (transfer_wf _ _ _ _ _ _ Hwf He) as (Hwf' & _ & _ & Hle & Hbal).
  pose proof (transfer_Ok _ _ _ _ _ _ He) as (-> & _).
  assert (Hfields : totalSupply t' = totalSupply t ∧ allowances t' = allowances t).
  { revert He.
    unfold GameToken.transfer, GameToken.whenNotPaused, ERC20.transfer. munfold.
    destruct (paused t); simpl; [done|]. rewrite ERC20_transfer_eq.
    destruct (sender =? 0); [done|]. destruct (to =? 0); [done|].
    destruct (amount <=? balanceOf t sender); [|done]. by intros [= <-]. }
  destruct Hfields as [Hts Hal].
  split; [done|]. split; [done|]. split; [done|]. split; [done|].
  split; [|split].
  - intros Hne. split.
    + rewrite Hbal, decide_True, decide_False by done. lia.
    + rewrite Hbal, decide_False, decide_True by done. done.
  - intros ->. rewrite Hbal, !decide_True by done. lia.
  - intros x H1 H2. rewrite Hbal, !decide_False by done. lia.
Qed.

(** X15. [transferFrom] needs an allowance that covers the amount and uses it
    up, unless the allowance is the maximal uint256, which is never
    reduced. *)
Theorem transferFrom_spends_allowance
    (spender from to amount : N) (t t' : Token) (b : bool) :
  GameToken.transferFrom spender from to amount t = Ok (b, t') →
  (allowance t from spender = MAX_UINT256 ∨
   amount ≤ allowance t from spender) ∧
  allowance t' from spender =
    (if allowance t from spender =? MAX_UINT256 then MAX_UINT256
     else allowance t from spender - amount) ∧
  (∀ o sp, (o, sp) ≠ (from, spender) → allowance t' o sp = allowance t o sp).
Proof.
  intros He.
  pose proof (transferFrom_Ok _ _ _ _ _ _ _ He) as (_ & _ & _ & _ & Hle & _ & Hal & _).
  revert He.
  unfold GameToken.transferFrom, GameToken.whenNotPaused, ERC20.transferFrom.
  munfold. destruct (paused t); simpl; [done|].
  rewrite spendAllowance_eq.
  assert (Hkeep : ∀ t1, match ERC20._transfer from to amount t1 with
                        | Ok (_, s') => Ok (true, s')
                        | Revert msg => Revert msg
                        | Panic c => Panic c
                        end = Ok (b, t') → allowances t' = allowances t1).
  { intros t1. rewrite ERC20_transfer_eq.
    destruct (from =? 0); [done|]. destruct (to =? 0); [done|].
    destruct (amount <=? balanceOf t1 from); [|done]. by intros [= _ <-]. }
  destruct (N.eqb_spec (allowance t from spender) MAX_UINT256) as [Hmax|Hmax].
  - intros Hr%Hkeep. unfold allowance in *. rewrite Hr.
    split; [by left|]. split; [done|done].
  - destruct (N.leb_spec amount (allowance t from spender)); [|done].
    destruct (from =? 0); [done|]. destruct (spender =? 0); [done|].
    intros Hr%Hkeep. unfold allowance in *. rewrite Hr. simpl.
    split; [by right|]. split; [by rewrite lookup_insert_eq|].
    intros o sp Hne. by rewrite lookup_insert_ne.
Qed.

End GameTokenFacts.

(** ** TokenStore: buying GT with USDT *)

Lemma ERC20_transferFrom_wf spender from to amount t b t' :
  token_wf t → ERC20.transferFrom spender from to amount t = Ok (b, t') →
  b = true ∧ token_wf t' ∧ amount ≤ balanceOf t from ∧
  (allowance t from spender = MAX_UINT256 ∨ amount ≤ allowance t from spender) ∧
  ∀ x, balanceOf t' x =
       (if decide (from = x) then balanceOf t from - amount else balanceOf t x)
       + (if decide (to = x) then amount else 0).
Proof.
  intros Hwf. unfold ERC20.transferFrom. munfold. rewrite spendAllowance_eq.
  assert (Hgo : ∀ t1, token_wf t1 → (∀ x, balanceOf t1 x = balanceOf t x) →
            match ERC20._transfer from to amount t1 with
            | Ok (_, s') => Ok (true, s')
            | Revert msg => Revert msg
            | Panic c => Panic c
            end = Ok (b, t') →
            b = true ∧ token_wf t' ∧ amount ≤ balanceOf t from ∧
            ∀ x, balanceOf t' x =
              (if decide (from = x) then balanceOf t from - amount else balanceOf t x)
              + (if decide (to = x) then amount else 0)).
  { intros t1 Hwf1 Hb1.
    destruct (ERC20._transfer from to amount t1) as [[[] t2]| |] eqn:He; try done.
    intros [= <- <-].
    apply ERC20_transfer_wf in He as (Hwf' & _ & Hle & _ & _ & Hb); [|done].
    split; [done|]. split; [done|]. split; [by rewrite <- Hb1|].
    intros x. rewrite Hb, !Hb1. done. }
  destruct (N.eqb_spec (allowance t from spender) MAX_UINT256) as [Hm|Hm].
  - intros Hr. destruct (Hgo t Hwf (λ _, eq_refl) Hr) as (? & ? & ? & ?). auto 10.
  - destruct (N.leb_spec amount (allowance t from spender)); [|done].
    destruct (from =? 0); [done|]. destruct (spender =? 0); [done|].
    intros Hr.
    destruct (Hgo (set_allowance from spender (allowance t from spender - amount) t)
                Hwf (λ _, eq_refl) Hr) as (? & ? & ? & ?). auto 10.
Qed.

Lemma ERC20_transferFrom_succeeds spender from to amount t :
  spender ≠ 0 → from ≠ 0 → to ≠ 0 →
  amount ≤ allowance t from spender → amount ≤ balanceOf t from →
  ∃ t', ERC20.transferFrom spender from to amount t = Ok (true, t').
Proof.
  intros Hs Hf Ht Ha Hb. unfold ERC20.transferFrom. munfold.
  rewrite spendAllowance_eq.
  destruct (allowance t from spender =? MAX_UINT256).
  - rewrite ERC20_transfer_eq.
    destruct (N.eqb_spec from 0); [done|]. destruct (N.eqb_spec to 0); [done|].
    destruct (N.leb_spec amount (balanceOf t from)); [|lia]. eauto.
  - destruct (N.leb_spec amount (allowance t from spender)); [|lia].
    destruct (N.eqb_spec from 0); [done|].
    destruct (N.eqb_spec spender 0); [done|].
    rewrite ERC20_transfer_eq.
    destruct (N.eqb_spec from 0); [done|]. destruct (N.eqb_spec to 0); [done|].
    change (balanceOf (set_allowance from spender
              (allowance t from spender - amount) t) from)
      with (balanceOf t from).
    destruct (N.leb_spec amount (balanceOf t from)); [|lia]. eauto.
Qed.

Lemma ltb_0_pos (x : N) : (0 <? x) = negb (x =? 0).
Proof. destruct (N.ltb_spec 0 x), (N.eqb_spec x 0); simpl; lia || done. Qed.

Section TokenStoreFacts.

Variables (self owner : N).

Lemma buy_eq sender usdtAmount s :
  buy self sender usdtAmount s =
  let gtOut := usdtAmount * gtPerUsdt s / 1000000 in
  if usdtAmount =? 0 then Revert "Amount must be greater than 0"
  else if negb (usdtAmount * gtPerUsdt s <=? MAX_UINT256) then Panic 17
  else if gtOut =? 0 then Revert "GT output must be greater than 0"
  else match GameToken.mint self sender gtOut (storeToken s) with
       | Ok (_, g') =>
           match ERC20.transferFrom self sender self usdtAmount (usdt s) with
           | Ok (true, u') =>
               Ok (tt, mkStore u' g' (gtPerUsdt s)
                               (storeEvents s ++ [Purchase sender usdtAmount gtOut]))
           | Ok (false, _) => Revert "USDT transfer failed"
           | Revert msg => Revert msg
           | Panic c => Panic c
           end
       | Revert msg => Revert msg
       | Panic c => Panic c
       end.
Proof.
  unfold buy, call_gameToken, call_usdt, store_emit. munfold. cbv zeta.
  rewrite !ltb_0_pos.
  destruct (usdtAmount =? 0); simpl; [done|].
  destruct (usdtAmount * gtPerUsdt s <=? MAX_UINT256); simpl; [|done].
  rewrite ltb_0_pos.
  destruct (usdtAmount * gtPerUsdt s / 1000000 =? 0); simpl; [done|].
  destruct (GameToken.mint _ _ _ _) as [[[] g']| |]; simpl; try done.
  destruct (ERC20.transferFrom _ _ _ _ _) as [[[] u']| |]; done.
Qed.

(** X16. A purchase that goes through: the buyer receives
    [usdtAmount * gtPerUsdt / 10^6] freshly minted GT, rounded down, which
    is more than nothing; pays exactly [usdtAmount] USDT to the store;
    the rate stays and one Purchase event is logged.  The rounding loses
    less than one unit of GT; at the rate 10^18 (1 USDT = 1 GT) there is
    none: the buyer gets [usdtAmount * 10^12]. *)
Theorem buy_exact (sender usdtAmount : N) (s s' : StoreState) :
  token_wf (storeToken s) → token_wf (usdt s) → sender ≠ self →
  buy self sender usdtAmount s = Ok (tt, s') →
  let gtOut := usdtAmount * gtPerUsdt s / 1000000 in
  0 < gtOut ∧
  gtOut * 1000000 ≤ usdtAmount * gtPerUsdt s < (gtOut + 1) * 1000000 ∧
  (gtPerUsdt s = 10 ^ 18 → gtOut = usdtAmount * 10 ^ 12) ∧
  balanceOf (storeToken s') sender = balanceOf (storeToken s) sender + gtOut ∧
  totalSupply (storeToken s') = totalSupply (storeToken s) + gtOut ∧
  balanceOf (usdt s') sender = balanceOf (usdt s) sender - usdtAmount ∧
  usdtAmount ≤ balanceOf (usdt s) sender ∧
  balanceOf (usdt s') self = balanceOf (usdt s) self + usdtAmount ∧
  gtPerUsdt s' = gtPerUsdt s ∧
  storeEvents s' = storeEvents s ++ [Purchase sender usdtAmount gtOut].
Proof.
  intros Hgt Hus Hne He gtOut. rewrite buy_eq in He. cbv zeta in He.
  fold gtOut in He.
  destruct (N.eqb_spec usdtAmount 0); [done|].
  destruct (N.leb_spec (usdtAmount * gtPerUsdt s) MAX_UINT256); simpl in He; [|done].
  destruct (N.eqb_spec gtOut 0) as [|Hpos]; [done|].
  rewrite GameTokenFacts.mint_eq in He.
  destruct (bool_decide (self ∈ minters (storeToken s))) eqn:Hm; simpl in He; [|done].
  destruct (paused (storeToken s)) eqn:Hp; [done|].
  destruct (N.eqb_spec sender 0); [done|].
  destruct (N.leb_spec (totalSupply (storeToken s) + gtOut) MAX_UINT256);
    simpl in He; [|done].
  destruct (ERC20.transferFrom self sender self usdtAmount (usdt s))
    as [[[] u']| |] eqn:Hu; try done.
  injection He as <-. simpl.
  apply ERC20_transferFrom_wf in Hu as (_ & _ & Hle & _ & Hbal); [|done].
  destruct Hgt as [Hsum Hmax].
  pose proof (map_sum_lookup_le (λ v, v) (balances (storeToken s)) sender) as Hb.
  rewrite <- balanceOf_from_option in Hb.
  split; [lia|]. split.
  { unfold gtOut.
    pose proof (N.div_mod (usdtAmount * gtPerUsdt s) 1000000 ltac:(done)) as Hd.
    pose proof (N.mod_lt (usdtAmount * gtPerUsdt s) 1000000 ltac:(done)) as Hl.
    generalize dependent (usdtAmount * gtPerUsdt s mod 1000000).
    generalize (usdtAmount * gtPerUsdt s / 1000000).
    generalize (usdtAmount * gtPerUsdt s). clear. intros a q r -> Hl. lia. }
  split.
  { intros Hr. unfold gtOut. rewrite Hr.
    change (10 ^ 18) with (10 ^ 12 * 1000000).
    rewrite N.mul_assoc. by rewrite N.div_mul. }
  split.
  { rewrite balanceOf_set_balance, decide_True by done.
    apply N.mod_small. unfold MAX_UINT256 in *.
    change (balanceOf (set_totalSupply (totalSupply (storeToken s) + gtOut)
              (storeToken s)) sender) with (balanceOf (storeToken s) sender).
    lia. }
  split; [done|].
  split; [rewrite Hbal, decide_True, decide_False by done; lia|].
  split; [done|].
  split; [rewrite Hbal, decide_False, decide_True by done; lia|].
  done.
Qed.

(** X17. [buy] is refused for a zero amount and for an amount too small to buy
    one unit of GT at the current rate; it panics when the product with
    the rate does not fit a uint256.  A purchase that does not go through
    moves nothing: in particular the GT minted before a failing USDT
    transfer does not stay. *)
Theorem buy_rejects (sender usdtAmount : N) (s : StoreState) :
  (usdtAmount = 0 →
     buy self sender usdtAmount s = Revert "Amount must be greater than 0") ∧
  (0 < usdtAmount → usdtAmount * gtPerUsdt s < 1000000 →
     buy self sender usdtAmount s = Revert "GT output must be greater than 0") ∧
  (MAX_UINT256 < usdtAmount * gtPerUsdt s →
     buy self sender usdtAmount s = Panic 17) ∧
  ((∀ ok u', ERC20.transferFrom self sender self usdtAmount (usdt s) = Ok (ok, u') →
             ok = false) →
     ∀ s', buy self sender usdtAmount s ≠ Ok (tt, s')).
Proof.
  rewrite buy_eq. cbv zeta. split; [|split; [|split]].
  - by intros ->.
  - intros Hpos Hsmall.
    destruct (N.eqb_spec usdtAmount 0); [lia|].
    unfold MAX_UINT256.
    destruct (N.leb_spec (usdtAmount * gtPerUsdt s) (2 ^ 256 - 1)); [|lia].
    simpl. by rewrite N.div_small.
  - intros Hov.
    destruct (N.eqb_spec usdtAmount 0) as [->|]; [by rewrite N.mul_0_l in Hov|].
    destruct (N.leb_spec (usdtAmount * gtPerUsdt s) MAX_UINT256); [lia|done].
  - intros Hfail s'.
    destruct (usdtAmount =? 0); [done|].
    destruct (negb _); [done|].
    destruct (_ =? 0); [done|].
    destruct (GameToken.mint _ _ _ _) as [[[] g']| |]; try done.
    destruct (ERC20.transferFrom _ _ _ _ _) as [[[] u']| |] eqn:Hu; try done.
    by specialize (Hfail _ _ eq_refl).
Qed.

Lemma withdrawUSDT_eq sender to amount s :
  withdrawUSDT self owner sender to amount s =
  if negb (sender =? owner) then Revert "Ownable: caller is not the owner"
  else if to =? 0 then Revert "Invalid recipient"
  else if amount =? 0 then Revert "Amount must be greater than 0"
  else if negb (amount <=? balanceOf (usdt s) self)
       then Revert "Insufficient USDT balance"
  else match ERC20.transfer self to amount (usdt s) with
       | Ok (true, u') =>
           Ok (tt, mkStore u' (storeToken s) (gtPerUsdt s) (storeEvents s))
       | Ok (false, _) => Revert "USDT transfer failed"
       | Revert msg => Revert msg
       | Panic c => Panic c
       end.
Proof.
  unfold withdrawUSDT, call_usdt. munfold.
  destruct (sender =? owner); simpl; [|done].
  destruct (to =? 0); simpl; [done|].
  rewrite ltb_0_pos.
  destruct (amount =? 0); simpl; [done|].
  destruct (amount <=? balanceOf (usdt s) self); simpl; [|done].
  destruct (ERC20.transfer _ _ _ _) as [[[] u']| |]; done.
Qed.

(** X18. Only the owner withdraws USDT, never to the zero address, never
    nothing and never more than the store holds; a withdrawal that goes
    through moves exactly [amount] USDT from the store to the recipient
    and touches neither the GT token nor the rate. *)
Theorem withdrawUSDT_exact (sender to amount : N) (s : StoreState) :
  token_wf (usdt s) → self ≠ 0 → to ≠ self →
  (sender ≠ owner →
     withdrawUSDT self owner sender to amount s =
     Revert "Ownable: caller is not the owner") ∧
  (sender = owner → to ≠ 0 → 0 < amount → balanceOf (usdt s) self < amount →
     withdrawUSDT self owner sender to amount s =
     Revert "Insufficient USDT balance") ∧
  (sender = owner → to ≠ 0 → 0 < amount → amount ≤ balanceOf (usdt s) self →
     ∃ s', withdrawUSDT self owner sender to amount s = Ok (tt, s') ∧
           balanceOf (usdt s') self = balanceOf (usdt s) self - amount ∧
           balanceOf (usdt s') to = balanceOf (usdt s) to + amount ∧
           storeToken s' = storeToken s ∧ gtPerUsdt s' = gtPerUsdt s).
Proof.
  intros Hwf Hself Hts. rewrite withdrawUSDT_eq. split; [|split].
  - intros Hn. destruct (N.eqb_spec sender owner); done.
  - intros -> Hto Hpos Hlt. rewrite N.eqb_refl. simpl.
    destruct (N.eqb_spec to 0); [done|]. destruct (N.eqb_spec amount 0); [lia|].
    destruct (N.leb_spec amount (balanceOf (usdt s) self)); [lia|done].
  - intros -> Hto Hpos Hle. rewrite N.eqb_refl. simpl.
    destruct (N.eqb_spec to 0); [done|]. destruct (N.eqb_spec amount 0); [lia|].
    destruct (N.leb_spec amount (balanceOf (usdt s) self)); [|lia]. simpl.
    unfold ERC20.transfer. munfold.
    destruct (ERC20._transfer self to amount (usdt s)) as [[[] u']| |] eqn:He.
    + apply ERC20_transfer_wf in He as (_ & _ & _ & _ & _ & Hbal); [|done].
      eexists. split; [done|]. simpl.
      rewrite !Hbal. rewrite decide_True, !decide_False by done.
      rewrite decide_True by done. split; [lia|]. done.
    + rewrite ERC20_transfer_eq in He.
      destruct (N.eqb_spec self 0); [done|]. destruct (N.eqb_spec to 0); [done|].
      destruct (N.leb_spec amount (balanceOf (usdt s) self)); [done|lia].
    + rewrite ERC20_transfer_eq in He.
      destruct (self =? 0); [done|]. destruct (to =? 0); [done|].
      destruct (amount <=? balanceOf (usdt s) self); done.
Qed.

(** X19. Only the owner sets the rate, and only to a positive value; the new
    rate is what the next purchase is priced at. *)
Theorem updateGtPerUsdt_sets (sender newRate : N) (s : StoreState) :
  (sender ≠ owner →
     updateGtPerUsdt owner sender newRate s =
     Revert "Ownable: caller is not the owner") ∧
  (sender = owner → newRate = 0 →
     updateGtPerUsdt owner sender newRate s =
     Revert "Rate must be greater than 0") ∧
  (sender = owner → 0 < newRate →
     ∃ s', updateGtPerUsdt owner sender newRate s = Ok (tt, s') ∧
           gtPerUsdt s' = newRate ∧ usdt s' = usdt s ∧
           storeToken s' = storeToken s ∧
           storeEvents s' = storeEvents s ++ [GtPerUsdtUpdated (gtPerUsdt s) newRate] ∧
           ∀ buyer usdtAmount s'',
             buy self buyer usdtAmount s' = Ok (tt, s'') →
             storeEvents s'' =
               storeEvents s' ++
               [Purchase buyer usdtAmount (usdtAmount * newRate / 1000000)]).
Proof.
  unfold updateGtPerUsdt, store_emit. munfold. split; [|split].
  - intros Hn. destruct (N.eqb_spec sender owner); done.
  - intros -> ->. by rewrite N.eqb_refl.
  - intros -> Hpos. rewrite N.eqb_refl. simpl.
    rewrite ltb_0_pos. destruct (N.eqb_spec newRate 0); [lia|]. simpl.
    eexists. split; [done|]. simpl. repeat split.
    intros buyer usdtAmount s'' He. rewrite buy_eq in He. cbv zeta in He.
    simpl in He.
    destruct (usdtAmount =? 0); [done|].
    destruct (negb _); [done|].
    destruct (_ =? 0); [done|].
    destruct (GameToken.mint _ _ _ _) as [[[] g']| |]; try done.
    destruct (ERC20.transferFrom _ _ _ _ _) as [[[] u']| |]; try done.
    by injection He as <-.
Qed.


End TokenStoreFacts.
(** ** The match engine: what each call computes *)

Lemma matchAt_insert k m ms t e i :
  matchAt i (mkState (<[k := m]> ms) t e) =
  if decide (k = i) then m else matchAt i (mkState ms t e).
Proof.
  unfold matchAt. simpl. rewrite lookup_insert. by destruct (decide (k = i)).
Qed.

Ltac msimpl :=
  unfold store, emit, call_token; munfold; unfold matchAt; simpl;
  rewrite ?lookup_insert_eq, ?insert_insert_eq; simpl.

Section PlayGameFacts.

Variables (self owner operator timeout : N).

Lemma createMatch_eq sender i a b st s :
  createMatch owner sender i a b st s =
  if negb (sender =? owner) then Revert "Ownable: caller is not the owner"
  else if i =? 0 then Revert "Invalid match ID"
  else if (a =? 0) || (b =? 0) then Revert "Invalid player addresses"
  else if a =? b then Revert "Players must be different"
  else if st =? 0 then Revert "Stake must be greater than 0"
  else if negb (Match.id (matchAt i s) =? 0) then Revert "Match already exists"
  else Ok (tt, mkState
                 (<[i := Match.mk i a b st CREATED false false 0]> (matches s))
                 (gameToken s) (events s ++ [MatchCreated i a b st])).
Proof.
  unfold createMatch. msimpl.
  destruct (sender =? owner); simpl; [|done].
  destruct (i =? 0); simpl; [done|].
  destruct (a =? 0); simpl; [done|]. destruct (b =? 0); simpl; [done|].
  destruct (a =? b); simpl; [done|].
  destruct (N.ltb_spec 0 st), (N.eqb_spec st 0); try lia; simpl; [|done].
  destruct (Match.id (default Match.zero (matches s !! i)) =? 0); done.
Qed.

Lemma stake_eq sender now i s :
  stake self sender now i s =
  let m := matchAt i s in
  let m1 := if sender =? Match.p1 m then Match.set_p1Staked true m
            else Match.set_p2Staked true m in
  let m2 := if Match.p1Staked m1 && Match.p2Staked m1
            then Match.set_startTime now (Match.set_status STAKED m1)
            else m1 in
  if Match.id m =? 0 then Revert "Match does not exist"
  else if negb (Match.status m =? CREATED) then Revert "Match not in created status"
  else if negb ((sender =? Match.p1 m) || (sender =? Match.p2 m))
       then Revert "Not a player in this match"
  else if (if sender =? Match.p1 m then Match.p1Staked m else Match.p2Staked m)
       then Revert "Already staked"
  else match GameToken.transferFrom self sender self (Match.stake m) (gameToken s) with
       | Ok (true, t') =>
           Ok (tt, mkState (<[i := m2]> (matches s)) t'
                           (events s ++ [Staked i sender (Match.stake m)]))
       | Ok (false, _) => Revert "GT transfer failed"
       | Revert msg => Revert msg
       | Panic c => Panic c
       end.
Proof.
  unfold stake. msimpl.
  remember (default Match.zero (matches s !! i)) as m eqn:Hm.
  destruct (Match.id m =? 0); simpl; [done|].
  destruct (Match.status m =? CREATED); simpl; [|done].
  destruct ((sender =? Match.p1 m) || (sender =? Match.p2 m)); simpl; [|done].
  destruct (sender =? Match.p1 m) eqn:Hp1; simpl.
  - destruct (Match.p1Staked m); simpl; [done|].
    rewrite lookup_insert_eq. simpl. rewrite <- ?Hm.
    destruct (Match.p2Staked m); simpl;
      rewrite ?lookup_insert_eq, ?insert_insert_eq; simpl; rewrite <- ?Hm;
      rewrite ?lookup_insert_eq, ?insert_insert_eq; simpl; rewrite <- ?Hm;
      destruct (GameToken.transferFrom _ _ _ _ _) as [[[] ?]| |]; done.
  - destruct (Match.p2Staked m); simpl; [done|].
    rewrite lookup_insert_eq. simpl. rewrite <- ?Hm.
    destruct (Match.p1Staked m); simpl;
      rewrite ?lookup_insert_eq, ?insert_insert_eq; simpl; rewrite <- ?Hm;
      rewrite ?lookup_insert_eq, ?insert_insert_eq; simpl; rewrite <- ?Hm;
      destruct (GameToken.transferFrom _ _ _ _ _) as [[[] ?]| |]; done.
Qed.

Lemma commitResult_eq sender i w s :
  commitResult self operator sender i w s =
  let m := matchAt i s in
  if negb (sender =? operator) then Revert "Only operator can commit results"
  else if Match.id m =? 0 then Revert "Match does not exist"
  else if negb (Match.status m =? STAKED) then Revert "Match not staked"
  else if negb ((w =? Match.p1 m) || (w =? Match.p2 m))
       then Revert "Winner must be a player"
  else if negb (Match.stake m * 2 <=? MAX_UINT256) then Panic 17
  else match GameToken.transfer self w (Match.stake m * 2) (gameToken s) with
       | Ok (true, t') =>
           Ok (tt, mkState (<[i := Match.set_status SETTLED m]> (matches s)) t'
                           (events s ++ [Settled i w (Match.stake m * 2)]))
       | Ok (false, _) => Revert "GT transfer failed"
       | Revert msg => Revert msg
       | Panic c => Panic c
       end.
Proof.
  unfold commitResult. msimpl.
  destruct (sender =? operator); simpl; [|done].
  remember (default Match.zero (matches s !! i)) as m eqn:Hm.
  destruct (Match.id m =? 0); simpl; [done|].
  destruct (Match.status m =? STAKED); simpl; [|done].
  destruct ((w =? Match.p1 m) || (w =? Match.p2 m)); simpl; [|done].
  rewrite lookup_insert_eq. simpl. rewrite <- ?Hm.
  destruct (Match.stake m * 2 <=? MAX_UINT256); simpl; [|done].
  destruct (GameToken.transfer _ _ _ _) as [[[] ?]| |]; done.
Qed.

Lemma refund_eq now i s :
  refund self timeout now i s =
  let m := matchAt i s in
  let pay (flag : bool) (player : N) (acc : Token * list Event) :=
    if flag then
      match GameToken.transfer self player (Match.stake m) acc.1 with
      | Ok (true, t') => Ok (t', acc.2 ++ [Refunded i player (Match.stake m)])
      | Ok (false, _) => Revert "GT transfer failed"
      | Revert msg => Revert msg
      | Panic c => Panic c
      end
    else Ok acc in
  if Match.id m =? 0 then Revert "Match does not exist"
  else if negb (Match.status m =? STAKED) then Revert "Match not staked"
  else if negb (Match.startTime m + timeout <=? MAX_UINT256) then Panic 17
  else if negb (Match.startTime m + timeout <=? now) then Revert "Timeout not reached"
  else match pay (Match.p1Staked m) (Match.p1 m) (gameToken s, events s) with
       | Ok acc1 =>
           match pay (Match.p2Staked m) (Match.p2 m) acc1 with
           | Ok acc2 =>
               Ok (tt, mkState (<[i := Match.set_status REFUNDED m]> (matches s))
                               acc2.1 acc2.2)
           | Revert msg => Revert msg
           | Panic c => Panic c
           end
       | Revert msg => Revert msg
       | Panic c => Panic c
       end.
Proof.
  unfold refund. msimpl.
  remember (default Match.zero (matches s !! i)) as m eqn:Hm.
  destruct (Match.id m =? 0); simpl; [done|].
  destruct (Match.status m =? STAKED); simpl; [|done].
  destruct (Match.startTime m + timeout <=? MAX_UINT256); simpl; [|done].
  destruct (Match.startTime m + timeout <=? now); simpl; [|done].
  rewrite lookup_insert_eq. simpl. rewrite <- ?Hm.
  destruct (Match.p1Staked m); simpl.
  - destruct (GameToken.transfer self (Match.p1 m) _ _) as [[[] t1]| |];
      simpl; try done.
    destruct (Match.p2Staked m); simpl; [|done].
    destruct (GameToken.transfer self (Match.p2 m) _ _) as [[[] t2]| |]; done.
  - destruct (Match.p2Staked m); simpl; [|done].
    destruct (GameToken.transfer self (Match.p2 m) _ _) as [[[] t2]| |]; done.
Qed.

Lemma canRefund_eq now i s :
  canRefund timeout now i s =
  let m := matchAt i s in
  if Match.id m =? 0 then Ok (false, s)
  else if negb (Match.status m =? STAKED) then Ok (false, s)
  else if negb (Match.startTime m + timeout <=? MAX_UINT256) then Panic 17
  else Ok (Match.startTime m + timeout <=? now, s).
Proof.
  unfold canRefund. msimpl.
  destruct (Match.id _ =? 0); simpl; [done|].
  destruct (Match.status _ =? STAKED); simpl; [|done].
  destruct (_ <=? MAX_UINT256); done.
Qed.


(** *** What a call that went through established *)

Lemma createMatch_Ok sender i a b st s u s' :
  createMatch owner sender i a b st s = Ok (u, s') →
  sender = owner ∧ i ≠ 0 ∧ a ≠ 0 ∧ b ≠ 0 ∧ a ≠ b ∧ 0 < st ∧
  Match.id (matchAt i s) = 0 ∧
  s' = mkState (<[i := Match.mk i a b st CREATED false false 0]> (matches s))
               (gameToken s) (events s ++ [MatchCreated i a b st]).
Proof.
  rewrite createMatch_eq.
  destruct (N.eqb_spec sender owner); simpl; [|done].
  destruct (N.eqb_spec i 0); [done|].
  destruct (N.eqb_spec a 0); [done|]. destruct (N.eqb_spec b 0); [done|].
  simpl. destruct (N.eqb_spec a b); [done|].
  destruct (N.eqb_spec st 0); [done|].
  destruct (N.eqb_spec (Match.id (matchAt i s)) 0); simpl; [|done].
  intros [= <-]. repeat split; auto. lia.
Qed.

Lemma stake_Ok sender now i s u s' :
  stake self sender now i s = Ok (u, s') →
  let m := matchAt i s in
  Match.id m ≠ 0 ∧ Match.status m = CREATED ∧
  (sender = Match.p1 m ∨ sender = Match.p2 m) ∧
  (if sender =? Match.p1 m then Match.p1Staked m else Match.p2Staked m) = false ∧
  ∃ t', GameToken.transferFrom self sender self (Match.stake m) (gameToken s)
          = Ok (true, t') ∧
        s' = mkState
               (<[i := let m1 := if sender =? Match.p1 m
                                 then Match.set_p1Staked true m
                                 else Match.set_p2Staked true m in
                       if Match.p1Staked m1 && Match.p2Staked m1
                       then Match.set_startTime now (Match.set_status STAKED m1)
                       else m1]> (matches s))
               t' (events s ++ [Staked i sender (Match.stake m)]).
Proof.
  rewrite stake_eq. cbv zeta.
  destruct (N.eqb_spec (Match.id (matchAt i s)) 0); [done|].
  destruct (N.eqb_spec (Match.status (matchAt i s)) CREATED); simpl; [|done].
  destruct (orb _ _) eqn:Hpl; simpl; [|done].
  destruct (if sender =? _ then _ else _) eqn:Hfl; [done|].
  destruct (GameToken.transferFrom _ _ _ _ _) as [[[] t']| |] eqn:Htr; try done.
  intros [= <-]. repeat split; auto.
  - apply orb_true_iff in Hpl as [?%N.eqb_eq|?%N.eqb_eq]; auto.
  - eauto.
Qed.

Lemma commitResult_Ok sender i w s u s' :
  commitResult self operator sender i w s = Ok (u, s') →
  let m := matchAt i s in
  sender = operator ∧ Match.id m ≠ 0 ∧ Match.status m = STAKED ∧
  (w = Match.p1 m ∨ w = Match.p2 m) ∧ Match.stake m * 2 ≤ MAX_UINT256 ∧
  ∃ t', GameToken.transfer self w (Match.stake m * 2) (gameToken s)
          = Ok (true, t') ∧
        s' = mkState (<[i := Match.set_status SETTLED m]> (matches s)) t'
                     (events s ++ [Settled i w (Match.stake m * 2)]).
Proof.
  rewrite commitResult_eq. cbv zeta.
  destruct (N.eqb_spec sender operator); simpl; [|done].
  destruct (N.eqb_spec (Match.id (matchAt i s)) 0); [done|].
  destruct (N.eqb_spec (Match.status (matchAt i s)) STAKED); simpl; [|done].
  destruct (orb _ _) eqn:Hpl; simpl; [|done].
  destruct (N.leb_spec (Match.stake (matchAt i s) * 2) MAX_UINT256); simpl; [|done].
  destruct (GameToken.transfer _ _ _ _) as [[[] t']| |] eqn:Htr; try done.
  intros [= <-]. repeat split; auto.
  - apply orb_true_iff in Hpl as [?%N.eqb_eq|?%N.eqb_eq]; auto.
  - eauto.
Qed.

Lemma refund_Ok now i s u s' :
  refund self timeout now i s = Ok (u, s') →
  let m := matchAt i s in
  Match.id m ≠ 0 ∧ Match.status m = STAKED ∧
  Match.startTime m + timeout ≤ MAX_UINT256 ∧
  Match.startTime m + timeout ≤ now ∧
  ∃ t1 t2 e1 e2,
    (if Match.p1Staked m
     then GameToken.transfer self (Match.p1 m) (Match.stake m) (gameToken s)
            = Ok (true, t1) ∧
          e1 = events s ++ [Refunded i (Match.p1 m) (Match.stake m)]
     else t1 = gameToken s ∧ e1 = events s) ∧
    (if Match.p2Staked m
     then GameToken.transfer self (Match.p2 m) (Match.stake m) t1
            = Ok (true, t2) ∧
          e2 = e1 ++ [Refunded i (Match.p2 m) (Match.stake m)]
     else t2 = t1 ∧ e2 = e1) ∧
    s' = mkState (<[i := Match.set_status REFUNDED m]> (matches s)) t2 e2.
Proof.
  rewrite refund_eq. cbv zeta.
  destruct (N.eqb_spec (Match.id (matchAt i s)) 0); [done|].
  destruct (N.eqb_spec (Match.status (matchAt i s)) STAKED); simpl; [|done].
  destruct (N.leb_spec (Match.startTime (matchAt i s) + timeout) MAX_UINT256);
    simpl; [|done].
  destruct (N.leb_spec (Match.startTime (matchAt i s) + timeout) now);
    simpl; [|done].
  intros Hr. repeat split; auto.
  destruct (Match.p1Staked (matchAt i s)), (Match.p2Staked (matchAt i s)); simpl in *.
  - destruct (GameToken.transfer self (Match.p1 _) _ _) as [[[] t1]| |] eqn:H1;
      try done. simpl in Hr.
    destruct (GameToken.transfer self (Match.p2 _) _ _) as [[[] t2]| |] eqn:H2;
      try done. simpl in Hr. injection Hr as <-.
    by eexists t1, t2, _, _.
  - destruct (GameToken.transfer self (Match.p1 _) _ _) as [[[] t1]| |] eqn:H1;
      try done. simpl in Hr. injection Hr as <-.
    by eexists t1, t1, _, _.
  - destruct (GameToken.transfer self (Match.p2 _) _ _) as [[[] t2]| |] eqn:H2;
      try done. simpl in Hr. injection Hr as <-.
    by eexists _, t2, _, _.
  - injection Hr as <-. by eexists _, _, _, _.
Qed.

Local Abbreviation Exec := (exec self owner operator timeout).
Local Abbreviation Step := (step self owner operator timeout).
Local Abbreviation Run := (run self owner operator timeout).
Local Abbreviation Went := (succeeds self owner operator timeout).

Lemma step_Ok now c s u s' : Exec now c s = Ok (u, s') → Step now c s = s'.
Proof. unfold step. by intros ->. Qed.

Lemma step_fail now c s : Went now c s = false → Step now c s = s.
Proof.
  unfold step, succeeds. by destruct (Exec now c s) as [[]| |].
Qed.

(** A call either went through or left the state as it was. *)
Lemma step_cases now c s :
  (∃ s', Exec now c s = Ok (tt, s') ∧ Step now c s = s') ∨
  (Went now c s = false ∧ Step now c s = s).
Proof.
  unfold step, succeeds.
  destruct (Exec now c s) as [[[] s']| |]; eauto.
Qed.

Lemma run_app tr1 tr2 s : Run (tr1 ++ tr2) s = Run tr2 (Run tr1 s).
Proof.
  revert s. induction tr1 as [|[now c] tr1 IH]; intros s; simpl; [done|].
  apply IH.
Qed.

(** A call changes no match but the one it names. *)
Lemma step_other now c s k :
  call_id c ≠ k → matchAt k (Step now c s) = matchAt k s.
Proof.
  intros Hne. destruct (step_cases now c s) as [(s' & He & ->)|[_ ->]]; [|done].
  destruct c as [sd i a b st|sd i|sd i w|sd i]; simpl in *.
  - apply createMatch_Ok in He as (_ & _ & _ & _ & _ & _ & _ & ->).
    rewrite matchAt_insert. by destruct (decide (i = k)).
  - apply stake_Ok in He as (_ & _ & _ & _ & t' & _ & ->).
    rewrite matchAt_insert. by destruct (decide (i = k)).
  - apply commitResult_Ok in He as (_ & _ & _ & _ & _ & t' & _ & ->).
    rewrite matchAt_insert. by destruct (decide (i = k)).
  - apply refund_Ok in He as (_ & _ & _ & _ & t1 & t2 & e1 & e2 & _ & _ & ->).
    rewrite matchAt_insert. by destruct (decide (i = k)).
Qed.

(** *** The lifecycle of a match *)

(** One call on an existing match: the identity, the players and the stake
    stay, the status makes an allowed move, and a match that is neither
    CREATED nor STAKED is left as it is. *)
Lemma step_match now c s k :
  Match.id (matchAt k s) ≠ 0 →
  let m := matchAt k s in
  let m' := matchAt k (Step now c s) in
  Match.id m' = Match.id m ∧ Match.p1 m' = Match.p1 m ∧
  Match.p2 m' = Match.p2 m ∧ Match.stake m' = Match.stake m ∧
  status_step (Match.status m) (Match.status m') ∧
  (Match.status m ≠ CREATED → Match.status m ≠ STAKED → m' = m).
Proof.
  intros Hid. cbv zeta.
  destruct (decide (call_id c = k)) as [Hk|Hk];
    [|rewrite step_other by done; unfold status_step; auto 10].
  destruct (step_cases now c s) as [(s' & He & ->)|[_ ->]];
    [|unfold status_step; auto 10].
  destruct c as [sd i a b st|sd i|sd i w|sd i]; simpl in *; subst i.
  - apply createMatch_Ok in He as (_ & _ & _ & _ & _ & _ & H0 & _). done.
  - apply stake_Ok in He as (_ & Hst & _ & _ & t' & _ & ->).
    rewrite matchAt_insert, decide_True by done.
    destruct (matchAt k s) as [mi ma mb ms mst f1 f2 mt]; simpl in *. subst mst.
    unfold status_step.
    destruct (sd =? ma); simpl; [destruct f2|destruct f1]; simpl;
      repeat split; auto; done.
  - apply commitResult_Ok in He as (_ & _ & Hst & _ & _ & t' & _ & ->).
    rewrite matchAt_insert, decide_True by done.
    destruct (matchAt k s) as [mi ma mb ms mst f1 f2 mt]; simpl in *. subst mst.
    unfold status_step. repeat split; auto; done.
  - apply refund_Ok in He as (_ & Hst & _ & _ & t1 & t2 & e1 & e2 & _ & _ & ->).
    rewrite matchAt_insert, decide_True by done.
    destruct (matchAt k s) as [mi ma mb ms mst f1 f2 mt]; simpl in *. subst mst.
    unfold status_step. repeat split; auto; done.
Qed.

Lemma run_match_id tr s k :
  Match.id (matchAt k s) ≠ 0 →
  Match.id (matchAt k (Run tr s)) = Match.id (matchAt k s).
Proof.
  revert s. induction tr as [|[now c] tr IH]; intros s Hid; simpl; [done|].
  destruct (step_match now c s k Hid) as (Hi & _).
  rewrite IH by congruence. done.
Qed.

(** A match that is neither CREATED nor STAKED is never written again. *)
Lemma run_terminal tr s k :
  Match.id (matchAt k s) ≠ 0 →
  Match.status (matchAt k s) ≠ CREATED → Match.status (matchAt k s) ≠ STAKED →
  matchAt k (Run tr s) = matchAt k s.
Proof.
  revert s. induction tr as [|[now c] tr IH]; intros s Hid H0 H1; simpl; [done|].
  destruct (step_match now c s k Hid) as (_ & _ & _ & _ & _ & Heq).
  specialize (Heq H0 H1). rewrite IH; rewrite Heq; done.
Qed.

Lemma status_step_le a b : status_step a b → a ≤ b.
Proof. unfold status_step, CREATED, STAKED, SETTLED, REFUNDED. lia. Qed.

Lemma run_status_le tr s k :
  Match.id (matchAt k s) ≠ 0 →
  Match.status (matchAt k s) ≤ Match.status (matchAt k (Run tr s)).
Proof.
  revert s. induction tr as [|[now c] tr IH]; intros s Hid; simpl; [lia|].
  destruct (step_match now c s k Hid) as (Hi & _ & _ & _ & Hs & _).
  apply status_step_le in Hs.
  etrans; [exact Hs|]. apply IH. congruence.
Qed.

(** C2. For an existing match, every call of every history moves the
    status along CREATED → STAKED → SETTLED or CREATED → STAKED → REFUNDED
    or leaves it; the status never decreases over a history; and a match
    that is SETTLED or REFUNDED keeps its whole record whatever is called. *)
Theorem status_lifecycle (k : N) (s : State) :
  Match.id (matchAt k s) ≠ 0 →
  (∀ tr now c,
     status_step (Match.status (matchAt k (Run tr s)))
                 (Match.status (matchAt k (Run (tr ++ [(now, c)]) s)))) ∧
  (∀ tr, Match.status (matchAt k s) ≤ Match.status (matchAt k (Run tr s))) ∧
  (∀ tr, Match.status (matchAt k s) = SETTLED ∨
         Match.status (matchAt k s) = REFUNDED →
         matchAt k (Run tr s) = matchAt k s).
Proof.
  intros Hid. split; [|split].
  - intros tr now c. rewrite run_app. simpl.
    apply step_match. by rewrite run_match_id.
  - intros tr. by apply run_status_le.
  - intros tr Hterm. apply run_terminal; [done|..];
      unfold CREATED, STAKED, SETTLED, REFUNDED in *; lia.
Qed.

(** *** Settlement *)

Lemma custody_app k tr1 tr2 s :
  custody self owner operator timeout k (tr1 ++ tr2) s =
  (custody self owner operator timeout k tr1 s +
   custody self owner operator timeout k tr2 (Run tr1 s))%Z.
Proof.
  revert s. induction tr1 as [|[now c] tr1 IH]; intros s; simpl; [done|].
  rewrite IH. lia.
Qed.

(** [commitResult] on a match that is not STAKED reverts, whoever calls
    and whatever winner is named. *)
Lemma commitResult_not_staked sender i w s :
  Match.status (matchAt i s) ≠ STAKED →
  ∃ msg, commitResult self operator sender i w s = Revert msg ∧
         (sender = operator → Match.id (matchAt i s) ≠ 0 →
          msg = "Match not staked").
Proof.
  intros Hst. rewrite commitResult_eq. cbv zeta.
  destruct (N.eqb_spec sender operator); simpl;
    [|eexists; split; [done|tauto]].
  destruct (N.eqb_spec (Match.id (matchAt i s)) 0);
    [eexists; split; [done|tauto]|].
  destruct (N.eqb_spec (Match.status (matchAt i s)) STAKED); [done|].
  simpl. eauto.
Qed.

(** C1. On a STAKED match the operator's [commitResult] for one of the two
    players goes through when the token can move the payout (token not
    paused, the contract holds 2 × stake, no zero or self address
    involved): the match becomes SETTLED, exactly 2 × stake leaves the
    contract for the winner, the custody of the match drops by that
    amount (to 0 from the 2 × stake the two stakes brought in), and every
    later [commitResult] on the same id reverts, whoever calls, whatever
    winner is named, whatever happened in between. *)
Theorem commitResult_settles (s : State) (sender i w : N) :
  let m := matchAt i s in
  Match.id m ≠ 0 → Match.status m = STAKED → sender = operator →
  (w = Match.p1 m ∨ w = Match.p2 m) →
  paused (gameToken s) = false → self ≠ 0 → w ≠ 0 → w ≠ self →
  Match.stake m * 2 ≤ held self s →
  balanceOf (gameToken s) w + Match.stake m * 2 ≤ MAX_UINT256 →
  ∃ s', commitResult self operator sender i w s = Ok (tt, s') ∧
    Match.status (matchAt i s') = SETTLED ∧
    balanceOf (gameToken s') w = balanceOf (gameToken s) w + Match.stake m * 2 ∧
    held self s' = held self s - Match.stake m * 2 ∧
    (∀ x, x ≠ w → x ≠ self →
          balanceOf (gameToken s') x = balanceOf (gameToken s) x) ∧
    events s' = events s ++ [Settled i w (Match.stake m * 2)] ∧
    (∀ tr s0 now, Run tr s0 = s →
       custody self owner operator timeout i
               (tr ++ [(now, CommitResult sender i w)]) s0 =
       (custody self owner operator timeout i tr s0
        - Z.of_N (Match.stake m * 2))%Z) ∧
    (∀ tr sender' w',
       ∃ msg, commitResult self operator sender' i w' (Run tr s') = Revert msg ∧
              (sender' = operator → msg = "Match not staked")).
Proof.
  intros m Hid Hst Hop Hw Hp Hself Hw0 Hws Hheld Hmax.
  destruct (transfer_succeeds self w (Match.stake m * 2) (gameToken s))
    as [t' Ht]; auto.
  assert (He : commitResult self operator sender i w s =
               Ok (tt, mkState (<[i := Match.set_status SETTLED m]> (matches s)) t'
                               (events s ++ [Settled i w (Match.stake m * 2)]))).
  { rewrite commitResult_eq. cbv zeta. fold m.
    destruct (N.eqb_spec sender operator); [|done]. simpl.
    destruct (N.eqb_spec (Match.id m) 0); [done|].
    destruct (N.eqb_spec (Match.status m) STAKED); [|done]. simpl.
    assert ((w =? Match.p1 m) || (w =? Match.p2 m) = true) as ->.
    { apply orb_true_iff. destruct Hw; [left|right]; by apply N.eqb_eq. }
    simpl. destruct (N.leb_spec (Match.stake m * 2) MAX_UINT256); [|lia].
    simpl. by rewrite Ht. }
  apply transfer_Ok in Ht as (_ & _ & _ & _ & _ & _ & Hbal).
  assert (Hbw : balanceOf t' w = balanceOf (gameToken s) w + Match.stake m * 2).
  { rewrite Hbal, decide_True, decide_False by done.
    apply N.mod_small. unfold MAX_UINT256 in Hmax. lia. }
  assert (Hbs : balanceOf t' self = balanceOf (gameToken s) self - Match.stake m * 2).
  { rewrite Hbal, decide_False, decide_True by done. done. }
  eexists. split; [exact He|]. simpl. repeat split.
  - by rewrite matchAt_insert, decide_True.
  - done.
  - done.
  - intros x Hx1 Hx2. by rewrite Hbal, !decide_False.
  - intros tr s0 now Hrun. rewrite custody_app. simpl. rewrite Hrun.
    rewrite N.eqb_refl. erewrite step_Ok by (simpl; exact He).
    unfold held in *. simpl. rewrite Hbs. lia.
  - intros tr sender' w'.
    set (s' := mkState _ _ _).
    assert (Hid' : Match.id (matchAt i s') ≠ 0).
    { unfold s'. by rewrite matchAt_insert, decide_True. }
    assert (Hst' : Match.status (matchAt i s') = SETTLED).
    { unfold s'. by rewrite matchAt_insert, decide_True. }
    destruct (commitResult_not_staked sender' i w' (Run tr s')) as (msg & Hm & Hmsg).
    { rewrite run_terminal; rewrite ?Hst'; done. }
    exists msg. split; [done|]. intros Hs. apply Hmsg; [done|].
    by rewrite run_match_id.
Qed.

(** *** Refund *)

(** From the deadline on, [refund] pays each staked player back. *)
Lemma refund_pays (s : State) (now i : N) :
  let m := matchAt i s in
  Match.id m ≠ 0 → Match.status m = STAKED →
  Match.startTime m + timeout ≤ MAX_UINT256 →
  Match.startTime m + timeout ≤ now →
  paused (gameToken s) = false → self ≠ 0 →
  Match.p1 m ≠ 0 → Match.p2 m ≠ 0 → Match.p1 m ≠ Match.p2 m →
  Match.p1 m ≠ self → Match.p2 m ≠ self →
  Match.stake m * stakedCount m ≤ held self s →
  balanceOf (gameToken s) (Match.p1 m) + Match.stake m ≤ MAX_UINT256 →
  balanceOf (gameToken s) (Match.p2 m) + Match.stake m ≤ MAX_UINT256 →
  ∃ s', refund self timeout now i s = Ok (tt, s') ∧
    Match.status (matchAt i s') = REFUNDED ∧
    balanceOf (gameToken s') (Match.p1 m) =
      balanceOf (gameToken s) (Match.p1 m) +
      (if Match.p1Staked m then Match.stake m else 0) ∧
    balanceOf (gameToken s') (Match.p2 m) =
      balanceOf (gameToken s) (Match.p2 m) +
      (if Match.p2Staked m then Match.stake m else 0) ∧
    held self s' = held self s - Match.stake m * stakedCount m ∧
    (∀ x, x ≠ Match.p1 m → x ≠ Match.p2 m → x ≠ self →
          balanceOf (gameToken s') x = balanceOf (gameToken s) x) ∧
    events s' =
      events s ++
      (if Match.p1Staked m then [Refunded i (Match.p1 m) (Match.stake m)] else []) ++
      (if Match.p2Staked m then [Refunded i (Match.p2 m) (Match.stake m)] else []).
Proof.
  intros m Hid Hst Hfit.
  intros Hge Hp Hself H10 H20 H12 H1s H2s Hheld Hm1 Hm2.
    unfold held in *.
    rewrite refund_eq. cbv zeta. fold m.
    destruct (N.eqb_spec (Match.id m) 0); [done|].
    destruct (N.eqb_spec (Match.status m) STAKED); [|done]. simpl.
    destruct (N.leb_spec (Match.startTime m + timeout) MAX_UINT256); [|lia].
    simpl.
    destruct (N.leb_spec (Match.startTime m + timeout) now); [|lia]. simpl.
    unfold stakedCount in *.
    unfold MAX_UINT256 in Hm1, Hm2.
    destruct (Match.p1Staked m), (Match.p2Staked m); simpl.
    + destruct (transfer_succeeds self (Match.p1 m) (Match.stake m) (gameToken s))
        as [t1 Ht1]; auto; [lia|].
      rewrite Ht1. simpl.
      apply transfer_Ok in Ht1 as (_ & _ & _ & _ & _ & Hp1 & Hb1).
      destruct (transfer_succeeds self (Match.p2 m) (Match.stake m) t1)
        as [t2 Ht2]; auto.
      { rewrite Hb1, decide_False, decide_True by done. lia. }
      rewrite Ht2. simpl.
      apply transfer_Ok in Ht2 as (_ & _ & _ & _ & _ & _ & Hb2).
      eexists. split; [done|]. simpl.
      rewrite matchAt_insert, decide_True by done.
      repeat split; try done.
      * rewrite Hb2, decide_False, decide_False by done.
        rewrite Hb1, decide_True, decide_False by done.
        apply N.mod_small. lia.
      * rewrite Hb2, decide_True, decide_False by done.
        rewrite Hb1, decide_False, decide_False by done.
        apply N.mod_small. lia.
      * rewrite Hb2, decide_False, decide_True by done.
        rewrite Hb1, decide_False, decide_True by done. lia.
      * intros x ? ? ?. rewrite Hb2, !decide_False by done.
        by rewrite Hb1, !decide_False.
      * by rewrite <- app_assoc.
    + destruct (transfer_succeeds self (Match.p1 m) (Match.stake m) (gameToken s))
        as [t1 Ht1]; auto; [lia|].
      rewrite Ht1. simpl.
      apply transfer_Ok in Ht1 as (_ & _ & _ & _ & _ & Hp1 & Hb1).
      eexists. split; [done|]. simpl.
      rewrite matchAt_insert, decide_True by done.
      repeat split; try done.
      * rewrite Hb1, decide_True, decide_False by done.
        apply N.mod_small. lia.
      * rewrite Hb1, decide_False, decide_False by done. lia.
      * rewrite Hb1, decide_False, decide_True by done. lia.
      * intros x ? ? ?. by rewrite Hb1, !decide_False.
    + destruct (transfer_succeeds self (Match.p2 m) (Match.stake m) (gameToken s))
        as [t2 Ht2]; auto; [lia|].
      rewrite Ht2. simpl.
      apply transfer_Ok in Ht2 as (_ & _ & _ & _ & _ & _ & Hb2).
      eexists. split; [done|]. simpl.
      rewrite matchAt_insert, decide_True by done.
      repeat split; try done.
      * rewrite Hb2, decide_False, decide_False by done. lia.
      * rewrite Hb2, decide_True, decide_False by done.
        apply N.mod_small. lia.
      * rewrite Hb2, decide_False, decide_True by done. lia.
      * intros x ? ? ?. by rewrite Hb2, !decide_False.
    + eexists. split; [done|]. simpl.
      rewrite matchAt_insert, decide_True by done.
      repeat split; try done; try lia. by rewrite app_nil_r.
Qed.

(** C5. On a STAKED match whose deadline [startTime + timeout] fits a
    uint256: before the deadline [refund] reverts with "Timeout not
    reached" and the transaction changes nothing; from the deadline on it
    goes through when the token can move the stakes (token not paused,
    the contract holds them, the players are two distinct addresses other
    than zero and the contract): the match becomes REFUNDED and exactly
    [stake] goes back to each player whose staked flag is set. *)
Theorem refund_after_timeout (s : State) (sender now i : N) :
  let m := matchAt i s in
  Match.id m ≠ 0 → Match.status m = STAKED →
  Match.startTime m + timeout ≤ MAX_UINT256 →
  (now < Match.startTime m + timeout →
     refund self timeout now i s = Revert "Timeout not reached" ∧
     Step now (Refund sender i) s = s) ∧
  (Match.startTime m + timeout ≤ now →
   paused (gameToken s) = false → self ≠ 0 →
   Match.p1 m ≠ 0 → Match.p2 m ≠ 0 → Match.p1 m ≠ Match.p2 m →
   Match.p1 m ≠ self → Match.p2 m ≠ self →
   Match.stake m * stakedCount m ≤ held self s →
   balanceOf (gameToken s) (Match.p1 m) + Match.stake m ≤ MAX_UINT256 →
   balanceOf (gameToken s) (Match.p2 m) + Match.stake m ≤ MAX_UINT256 →
   ∃ s', refund self timeout now i s = Ok (tt, s') ∧
     Match.status (matchAt i s') = REFUNDED ∧
     balanceOf (gameToken s') (Match.p1 m) =
       balanceOf (gameToken s) (Match.p1 m) +
       (if Match.p1Staked m then Match.stake m else 0) ∧
     balanceOf (gameToken s') (Match.p2 m) =
       balanceOf (gameToken s) (Match.p2 m) +
       (if Match.p2Staked m then Match.stake m else 0) ∧
     held self s' = held self s - Match.stake m * stakedCount m ∧
     (∀ x, x ≠ Match.p1 m → x ≠ Match.p2 m → x ≠ self →
           balanceOf (gameToken s') x = balanceOf (gameToken s) x) ∧
     events s' =
       events s ++
       (if Match.p1Staked m then [Refunded i (Match.p1 m) (Match.stake m)] else []) ++
       (if Match.p2Staked m then [Refunded i (Match.p2 m) (Match.stake m)] else [])).
Proof.
  intros m Hid Hst Hfit. split.
  - intros Hlt.
    assert (He : refund self timeout now i s = Revert "Timeout not reached").
    { rewrite refund_eq. cbv zeta. fold m.
      destruct (N.eqb_spec (Match.id m) 0); [done|].
      destruct (N.eqb_spec (Match.status m) STAKED); [|done]. simpl.
      destruct (N.leb_spec (Match.startTime m + timeout) MAX_UINT256); [|lia].
      simpl.
      destruct (N.leb_spec (Match.startTime m + timeout) now); [lia|done]. }
    split; [done|]. unfold step. simpl. by rewrite He.
  - intros. by apply refund_pays.
Qed.

(** *** Staking is all-or-nothing *)

(** C6. A [stake] call that does not go through changes nothing: the
    transaction ends in the state it started from, so the staked flag set
    before the transfer, and the status and start time set with it, are
    gone.  In particular this is so whenever the token transfer inside
    [stake] does not succeed. *)
Theorem stake_all_or_nothing (s : State) (sender now i : N) :
  (succeeds self owner operator timeout now (Stake sender i) s = false →
     Step now (Stake sender i) s = s ∧
     matchAt i (Step now (Stake sender i) s) = matchAt i s) ∧
  ((∀ ok t', GameToken.transferFrom self sender self
               (Match.stake (matchAt i s)) (gameToken s) = Ok (ok, t') →
             ok = false) →
     succeeds self owner operator timeout now (Stake sender i) s = false).
Proof.
  split.
  - intros Hf. apply step_fail in Hf. by rewrite Hf.
  - intros Htr. unfold succeeds. simpl. rewrite stake_eq. cbv zeta.
    destruct (Match.id (matchAt i s) =? 0); [done|].
    destruct (negb (Match.status (matchAt i s) =? CREATED)); [done|].
    destruct (negb _); [done|].
    destruct (if sender =? _ then _ else _); [done|].
    destruct (GameToken.transferFrom _ _ _ _ _) as [[[] t']| |] eqn:Ht; try done.
    by specialize (Htr _ _ eq_refl).
Qed.

(** *** A match only one player staked on *)

(** While the other player has not staked, every call on the match but
    the other player's [stake] is reverted. *)
Lemma partial_stuck s i other now c :
  let m := matchAt i s in
  Match.id m ≠ 0 → Match.status m = CREATED →
  ((Match.p1Staked m = true ∧ Match.p2Staked m = false ∧ other = Match.p2 m) ∨
   (Match.p1Staked m = false ∧ Match.p2Staked m = true ∧ other = Match.p1 m)) →
  call_id c = i → c ≠ Stake other i → Step now c s = s.
Proof.
  intros m Hid Hst Hfl Hc Hne.
  destruct (step_cases now c s) as [(s' & He & _)|[_ ->]]; [|done].
  exfalso.
  destruct c as [sd j a b st|sd j|sd j w|sd j]; simpl in *; subst j.
  - apply createMatch_Ok in He as (_ & _ & _ & _ & _ & _ & H0 & _). done.
  - apply stake_Ok in He as (_ & _ & Hpl & Hnot & _). fold m in Hpl, Hnot.
    destruct (N.eqb_spec sd (Match.p1 m)) as [->|Hn1].
    + destruct Hfl as [(H1 & _)|(_ & _ & ->)]; congruence.
    + destruct Hpl as [?| ->]; [done|].
      destruct Hfl as [(_ & _ & ->)|(_ & H2 & _)]; congruence.
  - apply commitResult_Ok in He as (_ & _ & Hs & _). fold m in Hs.
    rewrite Hst in Hs. done.
  - apply refund_Ok in He as (_ & Hs & _). fold m in Hs.
    rewrite Hst in Hs. done.
Qed.

(** C8. A match on which one player staked and the other did not: as long
    as the other player does not stake, whatever else is called and
    however late, the record stays as it is (status CREATED, start time
    not set), [refund] reverts with "Match not staked" at every time, and
    no call on the match moves a token, so the one stake stays with the
    contract. *)
Theorem single_stake_stays (s : State) (i other : N) (tr : list (N * Call)) :
  let m := matchAt i s in
  Match.id m ≠ 0 → Match.status m = CREATED →
  ((Match.p1Staked m = true ∧ Match.p2Staked m = false ∧ other = Match.p2 m) ∨
   (Match.p1Staked m = false ∧ Match.p2Staked m = true ∧ other = Match.p1 m)) →
  Forall (λ tc, tc.2 ≠ Stake other i) tr →
  matchAt i (Run tr s) = m ∧
  Match.status (matchAt i (Run tr s)) = CREATED ∧
  Match.startTime (matchAt i (Run tr s)) = Match.startTime m ∧
  (∀ now, refund self timeout now i (Run tr s) = Revert "Match not staked") ∧
  custody self owner operator timeout i tr s = 0%Z.
Proof.
  intros m Hid Hst Hfl Htr.
  assert (Hkeep : matchAt i (Run tr s) = m ∧
                  custody self owner operator timeout i tr s = 0%Z).
  { subst m. revert s Hid Hst Hfl.
    induction Htr as [|[now c] tr Hc _ IH]; intros s Hid Hst Hfl; simpl; [done|].
    simpl in Hc.
    destruct (N.eqb_spec (call_id c) i) as [Hi|Hi].
    - rewrite (partial_stuck s i other now c) by done.
      destruct (IH s) as [-> ->]; auto. split; [done|lia].
    - assert (Hm : matchAt i (Step now c s) = matchAt i s)
        by by apply step_other.
      destruct (IH (Step now c s)) as [-> ->]; rewrite ?Hm; auto. }
  destruct Hkeep as [Hm Hcu]. rewrite Hm. repeat split; try done.
  intros now. rewrite refund_eq. cbv zeta. rewrite Hm.
  destruct (N.eqb_spec (Match.id m) 0); [done|].
  rewrite Hst. done.
Qed.

(** *** The view functions *)

(** C9. At a block time that is a uint256, [canRefund] returns true
    exactly when the three preconditions of [refund] hold: the match
    exists, it is STAKED, and the time is at or after
    [startTime + timeout].  A [refund] that goes through had [canRefund]
    true, and when [canRefund] is true a [refund] at the same time goes
    through, provided the token can move the stakes back. *)
Theorem canRefund_iff_refund (s : State) (now i : N) :
  let m := matchAt i s in
  now ≤ MAX_UINT256 →
  (canRefund timeout now i s = Ok (true, s) ↔
     Match.id m ≠ 0 ∧ Match.status m = STAKED ∧
     Match.startTime m + timeout ≤ now) ∧
  ((∃ s', refund self timeout now i s = Ok (tt, s')) →
     canRefund timeout now i s = Ok (true, s)) ∧
  (paused (gameToken s) = false → self ≠ 0 →
   Match.p1 m ≠ 0 → Match.p2 m ≠ 0 → Match.p1 m ≠ Match.p2 m →
   Match.p1 m ≠ self → Match.p2 m ≠ self →
   Match.stake m * stakedCount m ≤ held self s →
   balanceOf (gameToken s) (Match.p1 m) + Match.stake m ≤ MAX_UINT256 →
   balanceOf (gameToken s) (Match.p2 m) + Match.stake m ≤ MAX_UINT256 →
   canRefund timeout now i s = Ok (true, s) →
   ∃ s', refund self timeout now i s = Ok (tt, s')).
Proof.
  intros m Hnow.
  assert (Hiff : canRefund timeout now i s = Ok (true, s) ↔
                 Match.id m ≠ 0 ∧ Match.status m = STAKED ∧
                 Match.startTime m + timeout ≤ now).
  { rewrite canRefund_eq. cbv zeta. fold m.
    destruct (N.eqb_spec (Match.id m) 0); [split; [done|tauto]|].
    destruct (N.eqb_spec (Match.status m) STAKED); simpl; [|split; [done|tauto]].
    destruct (N.leb_spec (Match.startTime m + timeout) MAX_UINT256); simpl.
    - destruct (N.leb_spec (Match.startTime m + timeout) now).
      + split; auto.
      + split; [done|]. intros (_ & _ & ?). lia.
    - split; [done|]. intros (_ & _ & ?). lia. }
  split; [exact Hiff|]. split.
  - intros [s' He]. apply refund_Ok in He as (? & ? & _ & ? & _).
    apply Hiff. auto.
  - intros Hp Hself H10 H20 H12 H1s H2s Hheld Hm1 Hm2 Hcan.
    apply Hiff in Hcan as (Hid & Hst & Hge).
    assert (Hfit : Match.startTime m + timeout ≤ MAX_UINT256) by lia.
    destruct (refund_pays s now i) as (s' & He & _); auto. eauto.
Qed.

(** Every call keeps the stored records under their own non-zero id. *)
Lemma step_ids now c s :
  map_Forall (λ k m, Match.id m = k ∧ k ≠ 0) (matches s) →
  map_Forall (λ k m, Match.id m = k ∧ k ≠ 0) (matches (Step now c s)).
Proof.
  intros Hinv.
  destruct (step_cases now c s) as [(s' & He & ->)|[_ ->]]; [|done].
  assert (Hget : ∀ j, Match.id (matchAt j s) ≠ 0 → Match.id (matchAt j s) = j ∧ j ≠ 0).
  { intros j. unfold matchAt. destruct (matches s !! j) as [mj|] eqn:Hj; [|done].
    intros _. by apply Hinv in Hj. }
  destruct c as [sd i a b st|sd i|sd i w|sd i]; simpl in *.
  - apply createMatch_Ok in He as (_ & Hi & _ & _ & _ & _ & _ & ->). simpl.
    by apply map_Forall_insert_2.
  - apply stake_Ok in He as (Hid & _ & _ & _ & t' & _ & ->). simpl.
    apply map_Forall_insert_2; [|done]. apply Hget in Hid.
    destruct (matchAt i s) as [mi ma mb ms mst f1 f2 mt]; simpl in *.
    destruct (sd =? ma); simpl; [destruct f2|destruct f1]; done.
  - apply commitResult_Ok in He as (_ & Hid & _ & _ & _ & t' & _ & ->). simpl.
    apply map_Forall_insert_2; [|done]. by apply Hget in Hid.
  - apply refund_Ok in He as (Hid & _ & _ & _ & t1 & t2 & e1 & e2 & _ & _ & ->).
    simpl. apply map_Forall_insert_2; [|done]. by apply Hget in Hid.
Qed.

Lemma created_spec tr s k :
  Match.id (matchAt k (Run tr s)) ≠ 0 ↔
  Match.id (matchAt k s) ≠ 0 ∨ created self owner operator timeout k tr s = true.
Proof.
  revert s. induction tr as [|[now c] tr IH]; intros s; simpl.
  { split; [auto|]. by intros [?|?]. }
  rewrite IH. rewrite orb_true_iff.
  destruct (decide (Match.id (matchAt k s) = 0)) as [H0|H0].
  - (* not there yet: it appears exactly when createMatch goes through *)
    destruct (decide (call_id c = k)) as [Hk|Hk].
    + destruct (step_cases now c s) as [(s' & He & Hs)|[Hf Hs]]; rewrite Hs.
      * destruct c as [sd i a b st|sd i|sd i w|sd i]; simpl in *; subst i.
        -- unfold succeeds. simpl. rewrite He, N.eqb_refl. simpl.
           apply createMatch_Ok in He as (_ & Hi & _ & _ & _ & _ & _ & ->).
           rewrite matchAt_insert, decide_True by done. simpl. tauto.
        -- apply stake_Ok in He as (? & _). done.
        -- apply commitResult_Ok in He as (_ & ? & _). done.
        -- apply refund_Ok in He as (? & _). done.
      * destruct c as [sd i a b st|sd i|sd i w|sd i]; simpl in *;
          rewrite ?Hf, ?andb_false_r; simpl; intuition congruence.
    + rewrite step_other by done.
      destruct c as [sd i a b st|sd i|sd i w|sd i]; simpl in *;
        try (intuition congruence).
      destruct (N.eqb_spec i k); [done|]. simpl. intuition congruence.
  - destruct (step_match now c s k H0) as (Hi & _). rewrite Hi. tauto.
Qed.

(** C10. In every state the contract reaches from its deployment,
    [getMatch] returns without failing; the id field of what it returns
    is non-zero exactly when a [createMatch] call for that id went
    through; for an id never created it returns the all-zero record,
    whose status 0 reads CREATED; and [createMatch] reverts for the zero
    id, so no match is stored under it. *)
Theorem getMatch_sentinel (t0 : Token) (tr : list (N * Call)) (k : N) :
  let s := Run tr (deployed t0) in
  getMatch k s = Ok (matchAt k s, s) ∧
  (Match.id (matchAt k s) ≠ 0 ↔
     created self owner operator timeout k tr (deployed t0) = true) ∧
  (created self owner operator timeout k tr (deployed t0) = false →
     matchAt k s = Match.zero ∧ Match.status (matchAt k s) = CREATED) ∧
  (∀ s1 sender a b st, ∃ msg, createMatch owner sender 0 a b st s1 = Revert msg) ∧
  matchAt 0 s = Match.zero.
Proof.
  intros s.
  assert (Hinv : map_Forall (λ k m, Match.id m = k ∧ k ≠ 0) (matches s)).
  { assert (H0 : map_Forall (λ k (m : Match.t), Match.id m = k ∧ k ≠ 0)
                            (matches (deployed t0))) by apply map_Forall_empty.
    subst s. revert H0. generalize (deployed t0).
    induction tr as [|[now c] tr IH]; intros s0 H0; simpl; [done|].
    apply IH. by apply step_ids. }
  assert (Hzero : ∀ j, Match.id (matchAt j s) = 0 → matchAt j s = Match.zero).
  { intros j. unfold matchAt. destruct (matches s !! j) as [mj|] eqn:Hj; [|done].
    simpl. apply Hinv in Hj as [-> ?]. done. }
  assert (Hcr : Match.id (matchAt k s) ≠ 0 ↔
                created self owner operator timeout k tr (deployed t0) = true).
  { unfold s. rewrite created_spec.
    change (Match.id (matchAt k (deployed t0))) with 0. intuition congruence. }
  repeat split.
  - apply Hcr.
  - apply Hcr.
  - apply Hzero. destruct (decide (Match.id (matchAt k s) = 0)); [done|].
    apply Hcr in n. congruence.
  - rewrite Hzero; [done|]. destruct (decide (Match.id (matchAt k s) = 0)); [done|].
    apply Hcr in n. congruence.
  - intros s1 sender a b st. rewrite createMatch_eq.
    destruct (negb (sender =? owner)); simpl; eauto.
  - apply Hzero. unfold matchAt.
    destruct (matches s !! 0) as [m0|] eqn:H0; [|done].
    apply Hinv in H0 as [_ ?]. done.
Qed.

(** *** Escrow accounting *)

Lemma matchAt_lookup s k :
  state_wf self s → Match.id (matchAt k s) ≠ 0 →
  matches s !! k = Some (matchAt k s) ∧ match_ok self k (matchAt k s).
Proof.
  intros Hwf. unfold matchAt.
  destruct (matches s !! k) as [m|] eqn:Hk; [|done].
  intros _. split; [done|]. by apply Hwf in Hk.
Qed.

Lemma matchAt_absent s k :
  state_wf self s → Match.id (matchAt k s) = 0 → matchAt k s = Match.zero.
Proof.
  intros Hwf. unfold matchAt.
  destruct (matches s !! k) as [m|] eqn:Hk; [|done].
  simpl. intros H0. apply Hwf in Hk as (Hid & ? & _). congruence.
Qed.

(** One call by anyone but the contract itself keeps the token supply and
    the stored records in shape, and moves the contract's balance by
    exactly the change of what it owes on the match the call names. *)
Lemma step_escrow now c s :
  token_wf (gameToken s) → state_wf self s → call_sender c ≠ self →
  token_wf (gameToken (Step now c s)) ∧ state_wf self (Step now c s) ∧
  (Z.of_N (held self (Step now c s)) - Z.of_N (held self s) =
   Z.of_N (escrow_of (matchAt (call_id c) (Step now c s)))
   - Z.of_N (escrow_of (matchAt (call_id c) s)))%Z.
Proof.
  intros Htok Hwf Hsd.
  destruct (step_cases now c s) as [(s' & He & ->)|[_ ->]];
    [|split; [done|split; [done|lia]]].
  destruct c as [sd i a b st|sd i|sd i w|sd i]; simpl in *.
  - (* createMatch *)
    apply createMatch_Ok in He as (_ & Hi & Ha & Hb & Hab & Hst & H0 & ->).
    simpl. split; [done|]. split.
    + apply map_Forall_insert_2; [|done].
      unfold match_ok, CREATED, REFUNDED; simpl.
      repeat split; try done; try lia.
    + rewrite matchAt_insert, decide_True by done.
      rewrite (matchAt_absent s i) by done.
      unfold held, escrow_of, stakedCount. simpl. lia.
  - (* stake *)
    apply stake_Ok in He as (Hid & Hst & Hpl & Hnot & t' & Ht & ->).
    destruct (matchAt_lookup s i Hwf Hid) as [_ Hok].
    apply transferFrom_wf in Ht as (Htok' & _ & _ & Hle & Hbal); [|done].
    simpl. split; [done|].
    destruct (matchAt i s) as [mi ma mb ms mst f1 f2 mt] eqn:Hm.
    unfold match_ok in Hok. simpl in *.
    destruct Hok as (-> & Hi0 & Ha0 & Hb0 & Hab & Hs0 & Hle3 & Hc & Hnc & H1s & H2s).
    subst mst. destruct (Hc eq_refl) as [-> Hnb].
    split.
    + apply map_Forall_insert_2; [|done].
      unfold match_ok, CREATED, STAKED, REFUNDED.
      destruct (N.eqb_spec sd ma) as [->|Hne]; simpl in *.
      * subst f1. destruct f2; simpl; repeat split; try done; try lia;
          intros; try done; by intros [? ?].
      * destruct Hpl as [?| ->]; [done|]. subst f2.
        destruct f1; simpl; repeat split; try done; try lia;
          intros; try done; by intros [? ?].
    + rewrite matchAt_insert, decide_True by done.
      unfold held. simpl. rewrite Hbal, decide_False, decide_True by done.
      unfold escrow_of, stakedCount, CREATED, STAKED.
      destruct (sd =? ma); simpl in *.
      * subst f1. destruct f2; simpl; lia.
      * subst f2. destruct f1; simpl; lia.
  - (* commitResult *)
    apply commitResult_Ok in He as (_ & Hid & Hst & Hw & Hfit & t' & Ht & ->).
    destruct (matchAt_lookup s i Hwf Hid) as [_ Hok].
    apply transfer_wf in Ht as (Htok' & _ & _ & Hle & Hbal); [|done].
    simpl. split; [done|].
    destruct (matchAt i s) as [mi ma mb ms mst f1 f2 mt] eqn:Hm.
    unfold match_ok in Hok. simpl in *.
    destruct Hok as (-> & Hi0 & Ha0 & Hb0 & Hab & Hs0 & Hle3 & Hc & Hnc & H1s & H2s).
    subst mst. destruct Hnc as [-> ->]; [done|].
    split.
    + apply map_Forall_insert_2; [|done].
      unfold match_ok, CREATED, SETTLED, REFUNDED. simpl.
      repeat split; try done; try lia; auto.
    + rewrite matchAt_insert, decide_True by done.
      assert (w ≠ self) by (destruct Hw as [->| ->]; auto).
      unfold held. simpl. rewrite Hbal, decide_True, decide_False by done.
      unfold escrow_of, stakedCount, STAKED, SETTLED. simpl. lia.
  - (* refund *)
    apply refund_Ok in He as (Hid & Hst & _ & _ & t1 & t2 & e1 & e2 & H1 & H2 & ->).
    destruct (matchAt_lookup s i Hwf Hid) as [_ Hok].
    destruct (matchAt i s) as [mi ma mb ms mst f1 f2 mt] eqn:Hm.
    unfold match_ok in Hok. simpl in *.
    destruct Hok as (-> & Hi0 & Ha0 & Hb0 & Hab & Hs0 & Hle3 & Hc & Hnc & H1s & H2s).
    subst mst. destruct Hnc as [-> ->]; [done|].
    destruct H1 as [Ht1 _], H2 as [Ht2 _].
    apply transfer_wf in Ht1 as (Htok1 & _ & _ & Hle1 & Hbal1); [|done].
    apply transfer_wf in Ht2 as (Htok2 & _ & _ & Hle2 & Hbal2); [|done].
    split; [done|]. split.
    + apply map_Forall_insert_2; [|done].
      unfold match_ok, CREATED, REFUNDED. simpl.
      repeat split; try done; try lia; auto.
    + rewrite matchAt_insert, decide_True by done.
      specialize (H1s eq_refl). specialize (H2s eq_refl).
      unfold held. simpl.
      rewrite Hbal2, decide_True, decide_False by done.
      rewrite Hbal1, decide_True, decide_False in Hle2 |- * by done.
      unfold escrow_of, stakedCount, STAKED, REFUNDED. simpl. lia.
Qed.

(** Over a history without calls by the contract itself, the custody of a
    match is the change of what the contract owes on it. *)
Lemma custody_escrow tr s k :
  token_wf (gameToken s) → state_wf self s →
  Forall (λ tc, call_sender tc.2 ≠ self) tr →
  token_wf (gameToken (Run tr s)) ∧ state_wf self (Run tr s) ∧
  custody self owner operator timeout k tr s =
    (Z.of_N (escrow_of (matchAt k (Run tr s)))
     - Z.of_N (escrow_of (matchAt k s)))%Z.
Proof.
  intros Htok Hwf Htr. revert s Htok Hwf.
  induction Htr as [|[now c] tr Hc _ IH]; intros s Htok Hwf; simpl.
  { split; [done|]. split; [done|]. lia. }
  simpl in Hc.
  destruct (step_escrow now c s Htok Hwf Hc) as (Htok' & Hwf' & Hd).
  destruct (IH _ Htok' Hwf') as (? & ? & ->).
  split; [done|]. split; [done|].
  destruct (N.eqb_spec (call_id c) k) as [<-|Hne].
  - lia.
  - rewrite (step_other now c s k) by done. lia.
Qed.

(** [stake] on an existing match that has left CREATED reverts. *)
Lemma stake_not_created sender now i s :
  Match.id (matchAt i s) ≠ 0 → Match.status (matchAt i s) ≠ CREATED →
  stake self sender now i s = Revert "Match not in created status".
Proof.
  intros Hid Hst. rewrite stake_eq. cbv zeta.
  destruct (N.eqb_spec (Match.id (matchAt i s)) 0); [done|].
  destruct (N.eqb_spec (Match.status (matchAt i s)) CREATED); done.
Qed.

(** C4 (as the code has it). From a CREATED match nobody staked on, once
    both players' [stake] calls went through: the status was still CREATED
    after the first and is STAKED after the second, the start time is the
    time of the second call (so > 0 at a positive block time), the
    contract holds exactly 2 × stake more, and no later [stake] call on
    the match can go through, so the transition happens once.  Over every
    history from deployment, the custody of a match equals
    stake × (number of staked flags) while the match is CREATED or STAKED;
    once it is SETTLED or REFUNDED the custody is 0 and both flags are
    still set. *)
Theorem stake_escrow :
  (∀ s i a b t1 t2 s1 s2,
     let m := matchAt i s in
     token_wf (gameToken s) → state_wf self s → a ≠ self → b ≠ self →
     Match.status m = CREATED →
     Match.p1Staked m = false → Match.p2Staked m = false →
     stake self a t1 i s = Ok (tt, s1) →
     stake self b t2 i s1 = Ok (tt, s2) →
     Match.status (matchAt i s1) = CREATED ∧
     Match.status (matchAt i s2) = STAKED ∧
     Match.p1Staked (matchAt i s2) = true ∧
     Match.p2Staked (matchAt i s2) = true ∧
     Match.startTime (matchAt i s2) = t2 ∧
     (0 < t2 → 0 < Match.startTime (matchAt i s2)) ∧
     held self s2 = held self s + 2 * Match.stake m ∧
     (∀ tr c t3, stake self c t3 i (Run tr s2)
                 = Revert "Match not in created status")) ∧
  (∀ t0 tr k,
     let s := Run tr (deployed t0) in
     token_wf t0 → Forall (λ tc, call_sender tc.2 ≠ self) tr →
     (Match.status (matchAt k s) = CREATED ∨ Match.status (matchAt k s) = STAKED →
        custody self owner operator timeout k tr (deployed t0) =
        Z.of_N (Match.stake (matchAt k s) * stakedCount (matchAt k s))) ∧
     (Match.status (matchAt k s) = SETTLED ∨ Match.status (matchAt k s) = REFUNDED →
        custody self owner operator timeout k tr (deployed t0) = 0%Z ∧
        stakedCount (matchAt k s) = 2)).
Proof.
  split.
  - intros s i a b t1 t2 s1 s2 m Htok Hwf Ha Hb Hst Hf1 Hf2 He1 He2.
    pose proof (step_escrow t1 (Stake a i) s Htok Hwf Ha) as (Htok1 & Hwf1 & Hd1).
    rewrite (step_Ok t1 (Stake a i) s tt s1 He1) in Htok1, Hwf1, Hd1.
    pose proof (step_escrow t2 (Stake b i) s1 Htok1 Hwf1 Hb) as (_ & _ & Hd2).
    rewrite (step_Ok t2 (Stake b i) s1 tt s2 He2) in Hd2.
    simpl in Hd1, Hd2.
    apply stake_Ok in He1 as (Hid & _ & Hp1 & Hn1 & t' & _ & Hs1).
    assert (Hm1 : matchAt i s1 =
                  if a =? Match.p1 m then Match.set_p1Staked true m
                  else Match.set_p2Staked true m).
    { rewrite Hs1, matchAt_insert, decide_True by done. fold m.
      destruct (a =? Match.p1 m); simpl; rewrite ?Hf1, ?Hf2; done. }
    apply stake_Ok in He2 as (Hid2 & Hst2 & Hp2 & Hn2 & t'' & _ & Hs2).
    assert (Hm2 : matchAt i s2 =
                  Match.set_startTime t2
                    (Match.set_status STAKED
                       (Match.set_p2Staked true (Match.set_p1Staked true m)))).
    { rewrite Hs2, matchAt_insert, decide_True by done.
      rewrite Hm1 in Hn2 |- *. fold m in Hp1.
      destruct (N.eqb_spec a (Match.p1 m)) as [Ha1|Ha1]; simpl in *.
      - destruct (b =? Match.p1 m); [done|]. done.
      - destruct (b =? Match.p1 m); done. }
    assert (Hst1 : Match.status (matchAt i s1) = CREATED).
    { rewrite Hm1. by destruct (a =? Match.p1 m). }
    rewrite Hm2. simpl. repeat split; try done.
    + assert (E0 : escrow_of (matchAt i s) = 0).
      { fold m. unfold escrow_of, stakedCount. rewrite Hst, Hf1, Hf2.
        simpl. lia. }
      assert (E1 : escrow_of (matchAt i s1) = Match.stake m).
      { rewrite Hm1. unfold escrow_of, stakedCount.
        destruct (a =? Match.p1 m); simpl; rewrite Hst, ?Hf1, ?Hf2;
          simpl; lia. }
      assert (E2 : escrow_of (matchAt i s2) = 2 * Match.stake m).
      { rewrite Hm2. unfold escrow_of, stakedCount. simpl. lia. }
      rewrite E0, E1 in Hd1. rewrite E1, E2 in Hd2. lia.
    + intros tr c t3. apply stake_not_created.
      * rewrite run_match_id; rewrite Hm2; done.
      * pose proof (run_status_le tr s2 i) as Hle.
        rewrite Hm2 in Hle at 1 2. simpl in Hle.
        specialize (Hle Hid). unfold CREATED, STAKED in *. lia.
  - intros t0 tr k s Htok Htr.
    assert (Hwf0 : state_wf self (deployed t0)) by apply map_Forall_empty.
    destruct (custody_escrow tr (deployed t0) k Htok Hwf0 Htr) as (_ & Hwf & Hcu).
    fold s in Hwf, Hcu.
    change (escrow_of (matchAt k (deployed t0))) with 0 in Hcu.
    rewrite Hcu. unfold escrow_of.
    split.
    + intros [-> | ->]; simpl; lia.
    + intros Hterm.
      assert (Hid : Match.id (matchAt k s) ≠ 0).
      { intros H0. rewrite (matchAt_absent s k Hwf H0) in Hterm.
        by destruct Hterm. }
      destruct (matchAt_lookup s k Hwf Hid) as [_ Hok].
      destruct Hok as (_ & _ & _ & _ & _ & _ & _ & _ & Hnc & _).
      destruct Hnc as [H1 H2]; [by destruct Hterm as [-> | ->]|].
      unfold stakedCount. rewrite H1, H2.
      destruct Hterm as [-> | ->]; simpl; split; lia.
Qed.

(** *** Further properties of the match engine *)

(** X1. [createMatch] goes through exactly when the owner calls it with a
    non-zero unused id, two distinct non-zero players and a positive
    stake; the record it stores is CREATED with no flag and no start time,
    the token is not touched and MatchCreated is logged. *)
Theorem createMatch_creates (s : State) (sender i a b st : N) :
  (sender = owner ∧ i ≠ 0 ∧ a ≠ 0 ∧ b ≠ 0 ∧ a ≠ b ∧ 0 < st ∧
   Match.id (matchAt i s) = 0) ↔
  ∃ s', createMatch owner sender i a b st s = Ok (tt, s') ∧
        matchAt i s' = Match.mk i a b st CREATED false false 0 ∧
        gameToken s' = gameToken s ∧
        events s' = events s ++ [MatchCreated i a b st] ∧
        ∀ j, j ≠ i → matchAt j s' = matchAt j s.
Proof.
  split.
  - intros (Hs & Hi & Ha & Hb & Hab & Hst & H0).
    eexists. split.
    + rewrite createMatch_eq.
      destruct (N.eqb_spec sender owner); [|done]. simpl.
      destruct (N.eqb_spec i 0); [done|].
      destruct (N.eqb_spec a 0); [done|]. destruct (N.eqb_spec b 0); [done|].
      simpl. destruct (N.eqb_spec a b); [done|].
      destruct (N.eqb_spec st 0); [lia|].
      rewrite H0. simpl. done.
    + simpl. rewrite matchAt_insert, decide_True by done.
      repeat split; try done.
      intros j Hj. rewrite matchAt_insert, decide_False by done. done.
  - intros (s' & He & _).
    apply createMatch_Ok in He as (? & ? & ? & ? & ? & ? & ? & _). auto 10.
Qed.

(** Over any history the id, the players and the stake of an existing
    match stay as they were created. *)
Lemma run_match_fixed tr s k :
  Match.id (matchAt k s) ≠ 0 →
  Match.id (matchAt k (Run tr s)) = Match.id (matchAt k s) ∧
  Match.p1 (matchAt k (Run tr s)) = Match.p1 (matchAt k s) ∧
  Match.p2 (matchAt k (Run tr s)) = Match.p2 (matchAt k s) ∧
  Match.stake (matchAt k (Run tr s)) = Match.stake (matchAt k s).
Proof.
  revert s. induction tr as [|[now c] tr IH]; intros s Hid; simpl; [done|].
  destruct (step_match now c s k Hid) as (Hi & Ha & Hb & Hs & _).
  destruct (IH (Step now c s)) as (-> & -> & -> & ->); [congruence|]. done.
Qed.

(** X2. A match id is used once: after a [createMatch] that went through, the
    players and the stake are fixed for good and every later [createMatch]
    with that id reverts, "Match already exists" when the owner repeats it
    with otherwise valid arguments. *)
Theorem createMatch_once (s s1 : State) (sender i a b st : N)
    (tr : list (N * Call)) :
  createMatch owner sender i a b st s = Ok (tt, s1) →
  Match.p1 (matchAt i (Run tr s1)) = a ∧
  Match.p2 (matchAt i (Run tr s1)) = b ∧
  Match.stake (matchAt i (Run tr s1)) = st ∧
  (∀ sender' a' b' st',
     ∃ msg, createMatch owner sender' i a' b' st' (Run tr s1) = Revert msg ∧
            (sender' = owner → a' ≠ 0 → b' ≠ 0 → a' ≠ b' → 0 < st' →
             msg = "Match already exists")).
Proof.
  intros He. apply createMatch_Ok in He as (_ & Hi & _ & _ & _ & _ & _ & ->).
  set (s1 := mkState _ _ _).
  assert (Hm : matchAt i s1 = Match.mk i a b st CREATED false false 0).
  { unfold s1. by rewrite matchAt_insert, decide_True. }
  assert (Hid : Match.id (matchAt i s1) ≠ 0) by by rewrite Hm.
  destruct (run_match_fixed tr s1 i Hid) as (Hri & -> & -> & ->).
  rewrite Hm. simpl. repeat split.
  intros sender' a' b' st'. rewrite createMatch_eq.
  destruct (N.eqb_spec sender' owner); simpl; [|eexists; split; [done|tauto]].
  destruct (N.eqb_spec i 0); [done|].
  destruct (N.eqb_spec a' 0); simpl; [eexists; split; [done|tauto]|].
  destruct (N.eqb_spec b' 0); simpl; [eexists; split; [done|tauto]|].
  destruct (N.eqb_spec a' b'); [eexists; split; [done|tauto]|].
  destruct (N.eqb_spec st' 0); [eexists; split; [done|lia]|].
  rewrite Hri, Hm. simpl.
  destruct (N.eqb_spec i 0); [done|]. simpl. eauto.
Qed.

(** X3. [stake] by an address that is not one of the two players, and a second
    [stake] by a player who already staked, are reverted with the
    messages of the source and change nothing. *)
Theorem stake_rejects (s : State) (sender now i : N) :
  let m := matchAt i s in
  Match.id m ≠ 0 → Match.status m = CREATED →
  (sender ≠ Match.p1 m → sender ≠ Match.p2 m →
     stake self sender now i s = Revert "Not a player in this match") ∧
  (sender = Match.p1 m → Match.p1Staked m = true →
     stake self sender now i s = Revert "Already staked") ∧
  (sender ≠ Match.p1 m → sender = Match.p2 m → Match.p2Staked m = true →
     stake self sender now i s = Revert "Already staked") ∧
  (∀ msg, stake self sender now i s = Revert msg →
          Step now (Stake sender i) s = s).
Proof.
  intros m Hid Hst.
  assert (Hgen : stake self sender now i s =
    if negb ((sender =? Match.p1 m) || (sender =? Match.p2 m))
    then Revert "Not a player in this match"
    else if (if sender =? Match.p1 m then Match.p1Staked m else Match.p2Staked m)
    then Revert "Already staked"
    else match GameToken.transferFrom self sender self (Match.stake m)
                 (gameToken s) with
         | Ok (true, t') =>
             Ok (tt, mkState
               (<[i := let m1 := if sender =? Match.p1 m
                                 then Match.set_p1Staked true m
                                 else Match.set_p2Staked true m in
                       if Match.p1Staked m1 && Match.p2Staked m1
                       then Match.set_startTime now (Match.set_status STAKED m1)
                       else m1]> (matches s)) t'
               (events s ++ [Staked i sender (Match.stake m)]))
         | Ok (false, _) => Revert "GT transfer failed"
         | Revert msg => Revert msg
         | Panic c => Panic c
         end).
  { rewrite stake_eq. cbv zeta. fold m.
    destruct (N.eqb_spec (Match.id m) 0); [done|].
    destruct (N.eqb_spec (Match.status m) CREATED); [|done]. done. }
  repeat split.
  - intros H1 H2. rewrite Hgen.
    destruct (N.eqb_spec sender (Match.p1 m)); [done|].
    destruct (N.eqb_spec sender (Match.p2 m)); done.
  - intros H1 H2. rewrite Hgen.
    destruct (N.eqb_spec sender (Match.p1 m)); [|done]. simpl. by rewrite H2.
  - intros H1 H2 H3. rewrite Hgen.
    destruct (N.eqb_spec sender (Match.p1 m)); [done|].
    destruct (N.eqb_spec sender (Match.p2 m)); [|done]. simpl. by rewrite H3.
  - intros msg He. unfold step. simpl. by rewrite He.
Qed.

(** *** Solvency *)

Lemma escrow_of_lookup s k :
  from_option escrow_of 0 (matches s !! k) = escrow_of (matchAt k s).
Proof. unfold matchAt. by destruct (matches s !! k). Qed.

(** A call writes at most the record of the match it names. *)
Lemma step_matches now c s :
  matches (Step now c s) = matches s ∨
  matches (Step now c s) =
    <[call_id c := matchAt (call_id c) (Step now c s)]> (matches s).
Proof.
  destruct (step_cases now c s) as [(s' & He & ->)|[_ ->]]; [|by left].
  right.
  destruct c as [sd i a b st|sd i|sd i w|sd i]; simpl in *.
  - apply createMatch_Ok in He as (_ & _ & _ & _ & _ & _ & _ & ->).
    by rewrite matchAt_insert, decide_True.
  - apply stake_Ok in He as (_ & _ & _ & _ & t' & _ & ->).
    by rewrite matchAt_insert, decide_True.
  - apply commitResult_Ok in He as (_ & _ & _ & _ & _ & t' & _ & ->).
    by rewrite matchAt_insert, decide_True.
  - apply refund_Ok in He as (_ & _ & _ & _ & t1 & t2 & e1 & e2 & _ & _ & ->).
    by rewrite matchAt_insert, decide_True.
Qed.

Lemma step_solvent now c s :
  token_wf (gameToken s) → state_wf self s → call_sender c ≠ self →
  solvent self s → solvent self (Step now c s).
Proof.
  intros Htok Hwf Hsd Hsol.
  destruct (step_escrow now c s Htok Hwf Hsd) as (_ & _ & Hd).
  unfold solvent in *.
  destruct (step_matches now c s) as [Hx | Hx]; rewrite Hx.
  - assert (matchAt (call_id c) (Step now c s) = matchAt (call_id c) s) as Hm
      by (unfold matchAt; by rewrite Hx).
    rewrite Hm in Hd. lia.
  - pose proof (map_sum_insert escrow_of (matches s) (call_id c)
                  (matchAt (call_id c) (Step now c s))) as Hs.
    rewrite escrow_of_lookup in Hs.
    pose proof (map_sum_lookup_le escrow_of (matches s) (call_id c)) as Hl.
    rewrite escrow_of_lookup in Hl. lia.
Qed.

Lemma run_keeps tr s :
  token_wf (gameToken s) → state_wf self s → solvent self s →
  Forall (λ tc, call_sender tc.2 ≠ self) tr →
  token_wf (gameToken (Run tr s)) ∧ state_wf self (Run tr s) ∧
  solvent self (Run tr s).
Proof.
  intros Htok Hwf Hsol Htr. revert s Htok Hwf Hsol.
  induction Htr as [|[now c] tr Hc _ IH]; intros s Htok Hwf Hsol; simpl; [done|].
  simpl in Hc.
  destruct (step_escrow now c s Htok Hwf Hc) as (Htok' & Hwf' & _).
  apply IH; [done|done|]. by apply step_solvent.
Qed.

(** The states the contract reaches from its deployment through calls by
    anyone but itself keep the token supply, the shape of the records and
    the solvency of the contract. *)
Lemma run_invariants tr t0 :
  token_wf t0 → Forall (λ tc, call_sender tc.2 ≠ self) tr →
  token_wf (gameToken (Run tr (deployed t0))) ∧
  state_wf self (Run tr (deployed t0)) ∧
  solvent self (Run tr (deployed t0)).
Proof.
  intros Htok Htr. apply run_keeps; [done| | |done].
  - apply map_Forall_empty.
  - unfold solvent. simpl. rewrite map_sum_empty. lia.
Qed.

(** X5. In a state reached from deployment every stored match has the shape
    the data model asks for: two distinct non-zero players, a positive
    stake, one of the four statuses, no start time and at most one staked
    flag while CREATED, both flags once it left CREATED. *)
Theorem reachable_match_shape (t0 : Token) (tr : list (N * Call)) (k : N) :
  let m := matchAt k (Run tr (deployed t0)) in
  token_wf t0 → Forall (λ tc, call_sender tc.2 ≠ self) tr →
  Match.id m ≠ 0 →
  Match.id m = k ∧ Match.p1 m ≠ 0 ∧ Match.p2 m ≠ 0 ∧
  Match.p1 m ≠ Match.p2 m ∧ 0 < Match.stake m ∧
  (Match.status m = CREATED ∨ Match.status m = STAKED ∨
   Match.status m = SETTLED ∨ Match.status m = REFUNDED) ∧
  (Match.status m = CREATED →
     Match.startTime m = 0 ∧ stakedCount m ≤ 1) ∧
  (Match.status m ≠ CREATED → stakedCount m = 2).
Proof.
  intros m Htok Htr Hid.
  destruct (run_invariants tr t0 Htok Htr) as (_ & Hwf & _).
  destruct (matchAt_lookup _ k Hwf Hid) as [_ Hok]. fold m in Hok.
  destruct Hok as (Hk & _ & Ha & Hb & Hab & Hs & Hle & Hc & Hnc & _).
  split; [done|]. split; [done|]. split; [done|]. split; [done|].
  split; [done|]. split; [|split].
  - unfold CREATED, STAKED, SETTLED, REFUNDED in *. lia.
  - intros H. destruct (Hc H) as [H0 Hnb]. split; [done|].
    unfold stakedCount.
    destruct (Match.p1Staked m), (Match.p2Staked m);
      solve [lia | by destruct Hnb].
  - intros Hn. destruct (Hnc Hn) as [H1 H2]. unfold stakedCount.
    by rewrite H1, H2.
Qed.

(** X6. Settlement cannot run short of tokens: in every state reached from
    deployment, with the token not paused, the operator's [commitResult]
    for either player of a STAKED match goes through. *)
Theorem settlement_always_funded (t0 : Token) (tr : list (N * Call)) (i w : N) :
  let s := Run tr (deployed t0) in
  token_wf t0 → Forall (λ tc, call_sender tc.2 ≠ self) tr → self ≠ 0 →
  Match.id (matchAt i s) ≠ 0 → Match.status (matchAt i s) = STAKED →
  (w = Match.p1 (matchAt i s) ∨ w = Match.p2 (matchAt i s)) →
  paused (gameToken s) = false →
  ∃ s', commitResult self operator operator i w s = Ok (tt, s') ∧
        Match.status (matchAt i s') = SETTLED ∧
        balanceOf (gameToken s') w =
          balanceOf (gameToken s) w + Match.stake (matchAt i s) * 2.
Proof.
  intros s Htok Htr Hself Hid Hst Hw Hp.
  destruct (run_invariants tr t0 Htok Htr) as (Htok' & Hwf & Hsol).
  fold s in Htok', Hwf, Hsol.
  destruct (matchAt_lookup _ i Hwf Hid) as [Hlk Hok].
  set (m := matchAt i s) in *.
  destruct Hok as (_ & _ & Ha & Hb & Hab & Hs & _ & _ & Hnc & H1s & H2s).
  destruct Hnc as [H1 H2]; [by rewrite Hst|].
  assert (Hw0 : w ≠ 0) by (destruct Hw as [->| ->]; done).
  assert (Hws : w ≠ self) by (destruct Hw as [->| ->]; auto).
  assert (Hdue : Match.stake m * 2 ≤ held self s).
  { pose proof (map_sum_lookup_le escrow_of (matches s) i) as Hle.
    rewrite Hlk in Hle. simpl in Hle. unfold solvent in Hsol.
    assert (Hesc : escrow_of m = Match.stake m * 2).
    { unfold escrow_of, stakedCount. by rewrite Hst, H1, H2. }
    rewrite Hesc in Hle. lia. }
  destruct (transfer_succeeds self w (Match.stake m * 2) (gameToken s))
    as [t' Ht]; auto.
  pose proof Ht as Ht'.
  apply transfer_wf in Ht' as (_ & _ & _ & _ & Hbal); [|done].
  destruct Htok' as [Hsum Hmax].
  pose proof (map_sum_lookup2_le (λ v, v) (balances (gameToken s)) w self Hws)
    as H2le. rewrite <- !balanceOf_from_option in H2le.
  unfold held in Hdue.
  eexists. split.
  - rewrite commitResult_eq. cbv zeta. fold m.
    rewrite N.eqb_refl. simpl.
    destruct (N.eqb_spec (Match.id m) 0); [done|].
    rewrite Hst. simpl.
    assert ((w =? Match.p1 m) || (w =? Match.p2 m) = true) as ->.
    { apply orb_true_iff. destruct Hw; [left|right]; by apply N.eqb_eq. }
    simpl. destruct (N.leb_spec (Match.stake m * 2) MAX_UINT256); [|lia].
    simpl. rewrite Ht. done.
  - simpl. rewrite matchAt_insert, decide_True by done. split; [done|].
    rewrite Hbal, decide_False, decide_True by done. done.
Qed.

(** X7. A refund cannot run short of tokens either: in every state reached
    from deployment, with the token not paused, [refund] on a STAKED match
    goes through from the deadline on and gives each player the stake
    back. *)
Theorem refund_always_funded (t0 : Token) (tr : list (N * Call)) (now i : N) :
  let s := Run tr (deployed t0) in
  let m := matchAt i s in
  token_wf t0 → Forall (λ tc, call_sender tc.2 ≠ self) tr → self ≠ 0 →
  Match.id m ≠ 0 → Match.status m = STAKED →
  Match.startTime m + timeout ≤ MAX_UINT256 →
  Match.startTime m + timeout ≤ now →
  paused (gameToken s) = false →
  ∃ s', refund self timeout now i s = Ok (tt, s') ∧
        Match.status (matchAt i s') = REFUNDED ∧
        balanceOf (gameToken s') (Match.p1 m) =
          balanceOf (gameToken s) (Match.p1 m) + Match.stake m ∧
        balanceOf (gameToken s') (Match.p2 m) =
          balanceOf (gameToken s) (Match.p2 m) + Match.stake m ∧
        held self s' = held self s - 2 * Match.stake m.
Proof.
  intros s m Htok Htr Hself Hid Hst Hfit Hge Hp.
  destruct (run_invariants tr t0 Htok Htr) as (Htok' & Hwf & Hsol).
  fold s in Htok', Hwf, Hsol.
  destruct (matchAt_lookup _ i Hwf Hid) as [Hlk Hok]. fold m in Hlk, Hok.
  destruct Hok as (_ & _ & Ha & Hb & Hab & Hs & _ & _ & Hnc & H1s & H2s).
  destruct Hnc as [H1 H2]; [by rewrite Hst|].
  specialize (H1s H1). specialize (H2s H2).
  assert (Hdue : Match.stake m * 2 ≤ held self s).
  { pose proof (map_sum_lookup_le escrow_of (matches s) i) as Hle.
    rewrite Hlk in Hle. simpl in Hle. unfold solvent in Hsol.
    assert (Hesc : escrow_of m = Match.stake m * 2).
    { unfold escrow_of, stakedCount. by rewrite Hst, H1, H2. }
    rewrite Hesc in Hle. lia. }
  destruct Htok' as [Hsum Hmax]. unfold held in Hdue.
  pose proof (map_sum_lookup2_le (λ v, v) (balances (gameToken s))
                (Match.p1 m) self H1s) as L1.
  pose proof (map_sum_lookup2_le (λ v, v) (balances (gameToken s))
                (Match.p2 m) self H2s) as L2.
  rewrite <- !balanceOf_from_option in L1, L2.
  destruct (refund_pays s now i) as (s' & He & Hst' & Hb1 & Hb2 & Hh & _);
    fold m; auto.
  - unfold stakedCount, held. rewrite H1, H2. simpl. lia.
  - lia.
  - lia.
  - fold m in Hb1, Hb2, Hh. rewrite H1 in Hb1. rewrite H2 in Hb2.
    unfold stakedCount in Hh. rewrite H1, H2 in Hh. simpl in Hh.
    exists s'. repeat split; try done. lia.
Qed.

(** *** The event log *)

(** A call appends to the log and rewrites nothing of it; what it appends
    holds a Settled event for a match exactly when it is the
    [commitResult] that settled that match, with the payout and the
    winner the call computed. *)
Lemma step_events now c s :
  ∃ more, events (Step now c s) = events s ++ more ∧
    ∀ i w a, Settled i w a ∈ more →
      more = [Settled i w a] ∧ call_id c = i ∧
      Match.status (matchAt i s) = STAKED ∧
      Match.status (matchAt i (Step now c s)) = SETTLED ∧
      a = Match.stake (matchAt i s) * 2 ∧
      (w = Match.p1 (matchAt i s) ∨ w = Match.p2 (matchAt i s)).
Proof.
  destruct (step_cases now c s) as [(s' & He & ->)|[_ ->]];
    [|exists []; split; [by rewrite app_nil_r|by intros ??? ?%elem_of_nil]].
  destruct c as [sd i0 a0 b0 st|sd i0|sd i0 w0|sd i0]; simpl in *.
  - apply createMatch_Ok in He as (_ & _ & _ & _ & _ & _ & _ & ->).
    eexists. split; [done|]. intros i w a Hin.
    apply list_elem_of_singleton in Hin. done.
  - apply stake_Ok in He as (_ & _ & _ & _ & t' & _ & ->).
    eexists. split; [done|]. intros i w a Hin.
    apply list_elem_of_singleton in Hin. done.
  - apply commitResult_Ok in He as (_ & _ & Hst & Hw & _ & t' & _ & ->).
    eexists. split; [done|]. intros i w a Hin.
    apply list_elem_of_singleton in Hin. injection Hin as -> -> ->.
    rewrite matchAt_insert, decide_True by done. done.
  - apply refund_Ok in He as (_ & _ & _ & _ & t1 & t2 & e1 & e2 & H1 & H2 & ->).
    simpl.
    exists ((if Match.p1Staked (matchAt i0 s)
             then [Refunded i0 (Match.p1 (matchAt i0 s)) (Match.stake (matchAt i0 s))]
             else []) ++
            (if Match.p2Staked (matchAt i0 s)
             then [Refunded i0 (Match.p2 (matchAt i0 s)) (Match.stake (matchAt i0 s))]
             else [])).
    split.
    + destruct (Match.p1Staked _), (Match.p2Staked _);
        destruct H1 as [_ ->], H2 as [_ ->]; simpl;
        rewrite <- ?app_assoc, ?app_nil_r; done.
    + intros i w a Hin. exfalso.
      destruct (Match.p1Staked _), (Match.p2Staked _); simpl in Hin;
        repeat (apply elem_of_cons in Hin as [Hin|Hin]; [done|]);
        by apply elem_of_nil in Hin.
Qed.

Lemma settled_count_events i s s' more :
  events s' = events s ++ more →
  settled_count i s' =
    (settled_count i s + length (filter (λ e, settled_for i e = true) more))%nat.
Proof.
  intros He. unfold settled_count. by rewrite He, filter_app, length_app.
Qed.

Lemma settled_filter_none i more :
  (∀ w a, Settled i w a ∉ more) →
  filter (λ e, settled_for i e = true) more = [].
Proof.
  intros Hno. induction more as [|e more IH]; [done|].
  rewrite filter_cons.
  destruct (decide (settled_for i e = true)) as [He|He].
  - destruct e as [| |j w a| | |]; simpl in He; try done.
    apply N.eqb_eq in He as ->. exfalso. apply (Hno w a). by left.
  - apply IH. intros w a Hin. apply (Hno w a). by right.
Qed.

(** X8. The log of a state reached from deployment holds one Settled event
    for every SETTLED match and none for any other; each Settled event
    names a player of its match as winner and twice the stake as
    amount. *)
Theorem settled_events_sound (t0 : Token) (tr : list (N * Call)) (i : N) :
  let s := Run tr (deployed t0) in
  token_wf t0 → Forall (λ tc, call_sender tc.2 ≠ self) tr →
  settled_count i s =
    (if Match.status (matchAt i s) =? SETTLED then 1%nat else 0%nat) ∧
  ∀ w a, Settled i w a ∈ events s →
    Match.status (matchAt i s) = SETTLED ∧
    a = Match.stake (matchAt i s) * 2 ∧
    (w = Match.p1 (matchAt i s) ∨ w = Match.p2 (matchAt i s)).
Proof.
  intros s Htok Htr. subst s.
  assert (Hinv0 :
    state_wf self (deployed t0) ∧
    settled_count i (deployed t0) =
      (if Match.status (matchAt i (deployed t0)) =? SETTLED then 1%nat else 0%nat) ∧
    ∀ w a, Settled i w a ∈ events (deployed t0) →
      Match.status (matchAt i (deployed t0)) = SETTLED ∧
      a = Match.stake (matchAt i (deployed t0)) * 2 ∧
      (w = Match.p1 (matchAt i (deployed t0)) ∨
       w = Match.p2 (matchAt i (deployed t0)))).
  { split; [apply map_Forall_empty|]. split; [done|].
    intros w a Hin. by apply elem_of_nil in Hin. }
  assert (Htok0 : token_wf (gameToken (deployed t0))) by done.
  revert Htok0 Hinv0. generalize (deployed t0). clear Htok.
  induction Htr as [|[now c] tr Hc _ IH]; intros s Htok (Hwf & Hcnt & Hev);
    simpl; [done|].
  simpl in Hc.
  destruct (step_escrow now c s Htok Hwf Hc) as (Htok' & Hwf' & _).
  apply IH; [done|]. split; [done|].
  destruct (step_events now c s) as (more & Hmore & Hnew).
  rewrite (settled_count_events i s _ more Hmore).
  assert (Hdec : (∃ w a, Settled i w a ∈ more) ∨
                 ¬ (∃ w a, Settled i w a ∈ more)).
  { destruct (decide (Exists (λ e, settled_for i e = true) more)) as [Hex|Hex].
    - left. apply Exists_exists in Hex as (e & Hin & He).
      destruct e as [| |j w a| | |]; simpl in He; try done.
      apply N.eqb_eq in He as ->. eauto.
    - right. intros (w & a & Hin). apply Hex, Exists_exists.
      exists (Settled i w a). split; [done|]. simpl. by rewrite N.eqb_refl. }
  destruct Hdec as [(w & a & Hin)|Hno].
  - (* the call settled match i *)
    destruct (Hnew i w a Hin) as (-> & Hci & Hst & Hst' & Ha & Hw).
    assert (Hid : Match.id (matchAt i s) ≠ 0).
    { intros H0. rewrite (matchAt_absent s i Hwf H0) in Hst. done. }
    destruct (step_match now c s i Hid) as (_ & Hp1 & Hp2 & Hsk & _).
    rewrite Hcnt, Hst, Hst'. simpl.
    split.
    { rewrite filter_cons, decide_True by (simpl; apply N.eqb_refl). done. } intros w' a' Hin'. rewrite Hmore in Hin'.
    apply elem_of_app in Hin' as [Hold|Hn].
    + apply Hev in Hold as (Hs & _). rewrite Hst in Hs. done.
    + apply list_elem_of_singleton in Hn. injection Hn as -> ->.
      rewrite Hp1, Hp2, Hsk. done.
  - (* it did not *)
    rewrite settled_filter_none by (intros w a Hin; apply Hno; eauto).
    simpl. rewrite Nat.add_0_r.
    assert (Hsame : Match.status (matchAt i s) = SETTLED →
                    matchAt i (Step now c s) = matchAt i s).
    { intros Hs.
      assert (Hid : Match.id (matchAt i s) ≠ 0).
      { intros H0. rewrite (matchAt_absent s i Hwf H0) in Hs. done. }
      destruct (step_match now c s i Hid) as (_ & _ & _ & _ & _ & Hfix).
      apply Hfix; by rewrite Hs. }
    assert (Hnot : Match.status (matchAt i s) ≠ SETTLED →
                   Match.status (matchAt i (Step now c s)) ≠ SETTLED).
    { intros Hs Hs'.
      destruct (decide (call_id c = i)) as [Hci|Hci];
        [|by rewrite step_other in Hs' by done].
      destruct (step_cases now c s) as [(s' & He & Heq)|[_ Heq]];
        [|by rewrite Heq in Hs'].
      destruct c as [sd i0 a0 b0 st|sd i0|sd i0 w0|sd i0]; simpl in *; subst i0.
      - apply createMatch_Ok in He as (_ & _ & _ & _ & _ & _ & _ & Hs1).
        rewrite Heq, Hs1, matchAt_insert, decide_True in Hs' by done. done.
      - apply stake_Ok in He as (_ & Hc0 & _ & _ & t' & _ & Hs1).
        rewrite Heq, Hs1, matchAt_insert, decide_True in Hs' by done.
        destruct (matchAt i s) as [mi ma mb ms mst f1 f2 mt]; simpl in *.
        subst mst.
        destruct (sd =? ma); simpl in Hs'; [destruct f2|destruct f1]; done.
      - apply Hno. eexists w0, _.
        apply commitResult_Ok in He as (_ & _ & _ & _ & _ & t' & _ & Hs1).
        rewrite Heq, Hs1 in Hmore. simpl in Hmore.
        apply app_inv_head in Hmore as <-. by left.
      - apply refund_Ok in He as (_ & _ & _ & _ & t1 & t2 & e1 & e2 & _ & _ & Hs1).
        rewrite Heq, Hs1, matchAt_insert, decide_True in Hs' by done. done. }
    destruct (decide (Match.status (matchAt i s) = SETTLED)) as [Hs|Hs].
    + rewrite (Hsame Hs). split; [done|].
      intros w a Hin. rewrite Hmore in Hin.
      apply elem_of_app in Hin as [Hold|Hn]; [by apply Hev|].
      exfalso. apply Hno. eauto.
    + split.
      * rewrite Hcnt.
        destruct (N.eqb_spec (Match.status (matchAt i s)) SETTLED); [done|].
        destruct (N.eqb_spec (Match.status (matchAt i (Step now c s))) SETTLED);
          [by apply Hnot in Hs|done].
      * intros w a Hin. rewrite Hmore in Hin.
        apply elem_of_app in Hin as [Hold|Hn].
        -- apply Hev in Hold as (? & _). done.
        -- exfalso. apply Hno. eauto.
Qed.

(** *** The token as the contract leaves it *)

Lemma transfer_fields sender to amount t b t' :
  GameToken.transfer sender to amount t = Ok (b, t') →
  totalSupply t' = totalSupply t ∧ paused t' = paused t ∧
  admins t' = admins t ∧ minters t' = minters t ∧
  allowances t' = allowances t.
Proof.
  unfold GameToken.transfer, GameToken.whenNotPaused, ERC20.transfer. munfold.
  destruct (paused t) eqn:Hp; simpl; [done|]. rewrite ERC20_transfer_eq.
  destruct (sender =? 0); [done|]. destruct (to =? 0); [done|].
  destruct (amount <=? balanceOf t sender); [|done].
  intros [= _ <-]. simpl. by rewrite Hp.
Qed.

Lemma transferFrom_fields spender from to amount t b t' :
  GameToken.transferFrom spender from to amount t = Ok (b, t') →
  totalSupply t' = totalSupply t ∧ paused t' = paused t ∧
  admins t' = admins t ∧ minters t' = minters t.
Proof.
  unfold GameToken.transferFrom, GameToken.whenNotPaused, ERC20.transferFrom.
  munfold. destruct (paused t) eqn:Hp; simpl; [done|].
  rewrite spendAllowance_eq.
  assert (Hgo : ∀ t1, match ERC20._transfer from to amount t1 with
                      | Ok (_, s') => Ok (true, s')
                      | Revert msg => Revert msg
                      | Panic c => Panic c
                      end = Ok (b, t') →
                      totalSupply t' = totalSupply t1 ∧ paused t' = paused t1 ∧
                      admins t' = admins t1 ∧ minters t' = minters t1).
  { intros t1. rewrite ERC20_transfer_eq.
    destruct (from =? 0); [done|]. destruct (to =? 0); [done|].
    destruct (amount <=? balanceOf t1 from); [|done]. by intros [= _ <-]. }
  destruct (allowance t from spender =? MAX_UINT256).
  - intros Hr%Hgo. destruct Hr as (? & ? & ? & ?). repeat split; congruence.
  - destruct (amount <=? allowance t from spender); [|done].
    destruct (from =? 0); [done|]. destruct (spender =? 0); [done|].
    intros Hr%Hgo. simpl in Hr. destruct Hr as (? & ? & ? & ?).
    repeat split; congruence.
Qed.

(** X9. The match engine only moves tokens: over any history the total supply,
    the pause flag and the role holders of the token are what they were,
    and the balances keep adding up to the supply. *)
Theorem playgame_keeps_supply (tr : list (N * Call)) (s : State) :
  totalSupply (gameToken (Run tr s)) = totalSupply (gameToken s) ∧
  paused (gameToken (Run tr s)) = paused (gameToken s) ∧
  admins (gameToken (Run tr s)) = admins (gameToken s) ∧
  minters (gameToken (Run tr s)) = minters (gameToken s) ∧
  (token_wf (gameToken s) →
   map_sum (λ v, v) (balances (gameToken (Run tr s))) = totalSupply (gameToken s)).
Proof.
  assert (Hstep : ∀ now c s0,
    totalSupply (gameToken (Step now c s0)) = totalSupply (gameToken s0) ∧
    paused (gameToken (Step now c s0)) = paused (gameToken s0) ∧
    admins (gameToken (Step now c s0)) = admins (gameToken s0) ∧
    minters (gameToken (Step now c s0)) = minters (gameToken s0) ∧
    (token_wf (gameToken s0) → token_wf (gameToken (Step now c s0)))).
  { intros now c s0.
    destruct (step_cases now c s0) as [(s' & He & ->)|[_ ->]]; [|done].
    destruct c as [sd i a b st|sd i|sd i w|sd i]; simpl in *.
    - by apply createMatch_Ok in He as (_ & _ & _ & _ & _ & _ & _ & ->).
    - apply stake_Ok in He as (_ & _ & _ & _ & t' & Ht & ->). simpl.
      pose proof (transferFrom_fields _ _ _ _ _ _ _ Ht) as (? & ? & ? & ?).
      split; [done|]. split; [done|]. split; [done|]. split; [done|].
      intros Hwf. by apply transferFrom_wf in Ht as (? & _).
    - apply commitResult_Ok in He as (_ & _ & _ & _ & _ & t' & Ht & ->). simpl.
      pose proof (transfer_fields _ _ _ _ _ _ Ht) as (? & ? & ? & ? & _).
      split; [done|]. split; [done|]. split; [done|]. split; [done|].
      intros Hwf. by apply transfer_wf in Ht as (? & _).
    - apply refund_Ok in He as (_ & _ & _ & _ & t1 & t2 & e1 & e2 & H1 & H2 & ->).
      simpl.
      assert (Ha : totalSupply t1 = totalSupply (gameToken s0) ∧
                   paused t1 = paused (gameToken s0) ∧
                   admins t1 = admins (gameToken s0) ∧
                   minters t1 = minters (gameToken s0) ∧
                   (token_wf (gameToken s0) → token_wf t1)).
      { destruct (Match.p1Staked _).
        - destruct H1 as [Ht _].
          pose proof (transfer_fields _ _ _ _ _ _ Ht) as (? & ? & ? & ? & _).
          split; [done|]. split; [done|]. split; [done|]. split; [done|].
          intros Hwf. by apply transfer_wf in Ht as (? & _).
        - by destruct H1 as [-> _]. }
      destruct Ha as (A1 & A2 & A3 & A4 & A5).
      destruct (Match.p2Staked _).
      + destruct H2 as [Ht _].
        pose proof (transfer_fields _ _ _ _ _ _ Ht) as (? & ? & ? & ? & _).
        split; [congruence|]. split; [congruence|]. split; [congruence|].
        split; [congruence|].
        intros Hwf. apply A5 in Hwf. by apply transfer_wf in Ht as (? & _).
      + by destruct H2 as [-> _]. }
  revert s. induction tr as [|[now c] tr IH]; intros s; simpl.
  { split; [done|]. split; [done|]. split; [done|]. split; [done|].
    by intros [? _]. }
  destruct (Hstep now c s) as (S1 & S2 & S3 & S4 & S5).
  destruct (IH (Step now c s)) as (I1 & I2 & I3 & I4 & I5).
  split; [congruence|]. split; [congruence|]. split; [congruence|].
  split; [congruence|].
  intros Hwf. rewrite I5 by auto. done.
Qed.

(** X4. A player's [stake] on a CREATED match goes through when the player has
    not staked yet, the token is running, and the player holds and has
    approved the stake: exactly [stake] moves from the player to the
    contract, the player's flag is set, the other flag is left, and a
    Staked event is logged. *)
Theorem stake_takes_stake (s : State) (sender now i : N) :
  let m := matchAt i s in
  token_wf (gameToken s) →
  Match.id m ≠ 0 → Match.status m = CREATED →
  (sender = Match.p1 m ∨ sender = Match.p2 m) →
  (if sender =? Match.p1 m then Match.p1Staked m else Match.p2Staked m) = false →
  paused (gameToken s) = false → self ≠ 0 → sender ≠ 0 → sender ≠ self →
  Match.stake m ≤ allowance (gameToken s) sender self →
  Match.stake m ≤ balanceOf (gameToken s) sender →
  ∃ s', stake self sender now i s = Ok (tt, s') ∧
    balanceOf (gameToken s') sender = balanceOf (gameToken s) sender - Match.stake m ∧
    held self s' = held self s + Match.stake m ∧
    (if sender =? Match.p1 m then Match.p1Staked (matchAt i s')
     else Match.p2Staked (matchAt i s')) = true ∧
    (if sender =? Match.p1 m then Match.p2Staked (matchAt i s') = Match.p2Staked m
     else Match.p1Staked (matchAt i s') = Match.p1Staked m) ∧
    (Match.status (matchAt i s') = STAKED ↔
     Match.p1Staked (matchAt i s') = true ∧ Match.p2Staked (matchAt i s') = true) ∧
    events s' = events s ++ [Staked i sender (Match.stake m)].
Proof.
  intros m Hwf Hid Hst Hpl Hnot Hp Hself Hs0 Hss Hal Hbal.
  destruct (transferFrom_succeeds self sender self (Match.stake m) (gameToken s))
    as [t' Ht]; auto.
  pose proof Ht as Ht'.
  apply transferFrom_wf in Ht' as (_ & _ & _ & _ & Hb); [|done].
  eexists. split.
  - rewrite stake_eq. cbv zeta. fold m.
    destruct (N.eqb_spec (Match.id m) 0); [done|].
    rewrite Hst. simpl.
    assert ((sender =? Match.p1 m) || (sender =? Match.p2 m) = true) as ->.
    { apply orb_true_iff. destruct Hpl; [left|right]; by apply N.eqb_eq. }
    simpl. rewrite Hnot, Ht. done.
  - simpl. rewrite matchAt_insert, decide_True by done. unfold held. simpl.
    rewrite !Hb. rewrite decide_True, !decide_False by done.
    rewrite decide_True by done.
    split; [lia|]. split; [lia|].
    destruct (matchAt i s) as [mi ma mb ms mst f1 f2 mt] eqn:Hm.
    subst m. simpl in *. subst mst.
    destruct (sender =? ma); simpl in *; subst.
    + destruct f2; simpl; repeat split; try done; by intros [? ?].
    + destruct f1; simpl; repeat split; try done; by intros [? ?].
Qed.
End PlayGameFacts.

(** ** The leaderboard indexer *)

Module LeaderboardFacts.
Import Leaderboard.

Lemma lower_ascii_idemp c : lower_ascii (lower_ascii c) = lower_ascii c.
Proof. destruct c as [[] [] [] [] [] [] [] []]; reflexivity. Qed.

Lemma toLowerCase_idemp s : toLowerCase (toLowerCase s) = toLowerCase s.
Proof.
  induction s as [|c s IH]; simpl; [done|].
  by rewrite lower_ascii_idemp, IH.
Qed.





(** *** The ranking *)

#[local] Instance ranks_before_total : Total ranks_before.
Proof. intros a b. unfold ranks_before. lia. Qed.

#[local] Instance ranks_before_trans : Transitive ranks_before.
Proof. intros a b c. unfold ranks_before. lia. Qed.



(** *** The tables over a sequence of deliveries *)













(** *** The keys of the players table *)

Lemma upsert_addresses addr w g m clock rows :
  map address (upsert addr w g m clock rows) =
  if bool_decide (addr ∈ map address rows)
  then map address rows else map address rows ++ [addr].
Proof.
  induction rows as [|r rows IH]; cbn [upsert map].
  - rewrite bool_decide_eq_false_2 by apply not_elem_of_nil. done.
  - destruct (String.eqb_spec (address r) addr) as [Ha|Ha]; cbn [map address].
    + rewrite bool_decide_eq_true_2; [done|]. rewrite Ha. by left.
    + rewrite IH. destruct (bool_decide (addr ∈ map address rows)) eqn:Hb.
      * apply bool_decide_eq_true in Hb.
        rewrite bool_decide_eq_true_2; [done|]. by right.
      * apply bool_decide_eq_false in Hb.
        rewrite bool_decide_eq_false_2; [done|].
        intros [?|?]%elem_of_cons; congruence.
Qed.

Lemma upsert_keys addr w g m clock rows :
  toLowerCase addr = addr →
  NoDup (map address rows) →
  Forall (λ r, toLowerCase (address r) = address r) rows →
  NoDup (map address (upsert addr w g m clock rows)) ∧
  Forall (λ r, toLowerCase (address r) = address r)
         (upsert addr w g m clock rows).
Proof.
  intros Hl Hnd Hlow. split.
  - rewrite upsert_addresses.
    destruct (bool_decide (addr ∈ map address rows)) eqn:Hb; [done|].
    apply bool_decide_eq_false in Hb.
    apply NoDup_app. split; [done|]. split.
    + intros x Hx Hx'. apply list_elem_of_singleton in Hx'. by subst.
    + apply NoDup_singleton.
  - clear Hnd. induction rows as [|r rows IH]; simpl.
    + by constructor.
    + apply Forall_cons in Hlow as [Hr Hrows].
      destruct (String.eqb (address r) addr); constructor; simpl; auto.
Qed.

Lemma dispatch_keys d event clock db :
  NoDup (map address (players db)) →
  Forall (λ r, toLowerCase (address r) = address r) (players db) →
  NoDup (map address (players (dispatch d event clock db))) ∧
  Forall (λ r, toLowerCase (address r) = address r)
         (players (dispatch d event clock db)).
Proof.
  intros Hnd Hlow.
  destruct d as [buyer u g|mid p1 p2 st|mid pl st|mid wn amt|mid pl amt]; simpl.
  - apply upsert_keys; [apply toLowerCase_idemp|exact Hnd|exact Hlow].
  - destruct (upsert_keys (toLowerCase p1) 0 0 0 clock (players db))
      as [H1 H2]; [apply toLowerCase_idemp|exact Hnd|exact Hlow|].
    apply upsert_keys; [apply toLowerCase_idemp|exact H1|exact H2].
  - split; [exact Hnd|exact Hlow].
  - apply upsert_keys; [apply toLowerCase_idemp|exact Hnd|exact Hlow].
  - apply upsert_keys; [apply toLowerCase_idemp|exact Hnd|exact Hlow].
Qed.

(** X24. Whatever is delivered, the players table keeps one row per address
    and stores addresses in lower case, and a lookup finds the row of an
    address under any spelling of its letters' case. *)
Theorem players_keys (ds : list (Delivery * EventLog * N)) (a : string) :
  let db := replay ds setupDatabase in
  NoDup (map address (players db)) ∧
  Forall (λ r, toLowerCase (address r) = address r) (players db) ∧
  getPlayerStats (toLowerCase a) db = getPlayerStats a db ∧
  (∀ r, getPlayerStats a db = Some r → address r = toLowerCase a) ∧
  (getPlayerStats a db = None ↔ toLowerCase a ∉ map address (players db)).
Proof.
  intros db.
  assert (Hk : NoDup (map address (players db)) ∧
               Forall (λ r, toLowerCase (address r) = address r) (players db)).
  { subst db.
    assert (H0 : NoDup (map address (players setupDatabase)) ∧
                 Forall (λ r, toLowerCase (address r) = address r)
                        (players setupDatabase)).
    { split; [apply NoDup_nil_2|by constructor]. }
    revert H0. generalize setupDatabase.
    induction ds as [|[[d ev] clk] ds IH]; intros db0 [Hnd Hlow]; simpl; [done|].
    apply IH. by apply dispatch_keys. }
  destruct Hk as [Hnd Hlow]. split; [done|]. split; [done|].
  unfold getPlayerStats. rewrite toLowerCase_idemp. split; [done|]. split.
  - intros r Hf. apply find_some in Hf as [_ He]. by apply String.eqb_eq in He.
  - split.
    + intros Hn Hin. apply list_elem_of_fmap in Hin as (r & Hr & Hin).
      apply list_elem_of_In in Hin.
      eapply find_none in Hn; [|exact Hin]. simpl in Hn.
      rewrite <- Hr, String.eqb_refl in Hn. done.
    + intros Hn. destruct (find _ (players db)) as [r|] eqn:Hf; [|done].
      apply find_some in Hf as [Hin He]. apply String.eqb_eq in He.
      exfalso. apply Hn. apply list_elem_of_fmap. exists r.
      split; [done|]. by apply list_elem_of_In.
Qed.

(** *** The events table *)

Lemma logEvent_ids ty addr amt mid bn tx clock db :
  map ev_id (events db) = map N.of_nat (seq 1 (length (events db))) →
  map ev_id (events (logEvent ty addr amt mid bn tx clock db)) =
  map N.of_nat (seq 1 (length (events (logEvent ty addr amt mid bn tx clock db)))).
Proof.
  intros Hids. simpl. rewrite map_app, length_app, seq_app, map_app, Hids.
  simpl. f_equal. f_equal. lia.
Qed.

(** X25. Every delivery is logged: one row per delivery, two for MatchCreated
    (one per player), so a replayed delivery is logged again; the row ids
    count up from 1 without gaps, and no delivery removes a player row. *)
Theorem events_table_grows (ds : list (Delivery * EventLog * N)) (db : Db) :
  map ev_id (events db) = map N.of_nat (seq 1 (getEventCount db)) →
  getEventCount (replay ds db) =
    (getEventCount db + sum_list (map (λ d, logged d.1.1) ds))%nat ∧
  map ev_id (events (replay ds db)) =
    map N.of_nat (seq 1 (getEventCount (replay ds db))) ∧
  (getPlayerCount db ≤ getPlayerCount (replay ds db))%nat.
Proof.
  unfold getEventCount, getPlayerCount.
  revert db. induction ds as [|[[d ev] clk] ds IH]; intros db Hids; simpl.
  - split; [lia|]. split; [done|lia].
  - assert (Hstep :
      length (events (dispatch d ev clk db)) = (length (events db) + logged d)%nat ∧
      map ev_id (events (dispatch d ev clk db)) =
        map N.of_nat (seq 1 (length (events (dispatch d ev clk db)))) ∧
      (length (players db) ≤ length (players (dispatch d ev clk db)))%nat).
    { assert (Hup : ∀ addr w g m c rows,
                (length rows ≤ length (upsert addr w g m c rows))%nat).
      { intros addr w g m c rows. induction rows as [|r rows IHr]; simpl; [lia|].
        destruct (String.eqb (address r) addr); simpl; lia. }
      destruct d as [buyer u g|mid p1 p2 st|mid pl st|mid wn amt|mid pl amt];
        simpl.
      - split; [by rewrite length_app|]. split; [|apply Hup].
        by apply (logEvent_ids "Purchase").
      - split; [rewrite !length_app; simpl; lia|]. split.
        + apply (logEvent_ids "MatchCreated" _ _ _ _ _ _
                   (logEvent "MatchCreated" (toLowerCase p1) st (Some mid)
                      (blockNumber ev) (transactionHash ev) clk db)).
          by apply (logEvent_ids "MatchCreated").
        + etrans; [|apply Hup]. apply Hup.
      - split; [by rewrite length_app|]. split; [|done].
        by apply (logEvent_ids "Staked").
      - split; [by rewrite length_app|]. split; [|apply Hup].
        by apply (logEvent_ids "Settled").
      - split; [by rewrite length_app|]. split; [|apply Hup].
        by apply (logEvent_ids "Refunded"). }
    destruct Hstep as (Hlen & Hids' & Hpl).
    destruct (IH _ Hids') as (IH1 & IH2 & IH3).
    split; [lia|]. split; [done|lia].
Qed.

End LeaderboardFacts.

(** ** The theorems at the concrete deployment *)

Module Examples.
Import Scenario.

Lemma commitResult_settles_witness :
  ∃ s', commitResult 99 2 2 7 10 full = Ok (tt, s') ∧
        Match.status (matchAt 7 s') = SETTLED ∧
        held 99 s' = 0 ∧
        balanceOf (gameToken s') 10 = 1100.
Proof.
  destruct (commitResult_settles 99 1 2 50 full 2 7 10)
    as (s' & He & Hst & Hw & Hh & _);
    [by vm_compute | by vm_compute | done | by left | by vm_compute | done
    | done | done | by vm_compute | by vm_compute |].
  exists s'. split; [exact He|]. split; [exact Hst|].
  split; [rewrite Hh; by vm_compute | rewrite Hw; by vm_compute].
Defined.

Lemma status_lifecycle_witness :
  Match.status (matchAt 7 opened)
    ≤ Match.status (matchAt 7 (run 99 1 2 50 [(9, Refund 3 7)] opened)).
Proof.
  apply (status_lifecycle 99 1 2 50 7 opened). by vm_compute.
Defined.

Lemma stake_escrow_witness :
  Match.status (matchAt 7 full) = STAKED ∧
  Match.startTime (matchAt 7 full) = 7 ∧
  held 99 full = held 99 opened + 2 * 100.
Proof.
  destruct (proj1 (stake_escrow 99 1 2 50) opened 7 10 11 6 7 half full)
    as (_ & Hst & _ & _ & Ht & _ & Hh & _);
    [by vm_compute | | done | done | by vm_compute | by vm_compute
    | by vm_compute | by vm_compute | by vm_compute |].
  - unfold state_wf. apply (bool_decide_unpack _). by vm_compute.
  - split; [exact Hst|]. split; [exact Ht|]. exact Hh.
Defined.

(** After settlement the custody of match 7 is 0 while both staked flags
    are still set: stake × (number staked) is 200. *)
Lemma escrow_after_settlement_counterexample :
  Run history fresh = settled ∧
  custody 99 1 2 50 7 history fresh = 0%Z ∧
  held 99 settled = 0 ∧
  stakedCount (matchAt 7 settled) = 2 ∧
  custody 99 1 2 50 7 history fresh ≠
    Z.of_N (Match.stake (matchAt 7 settled) * stakedCount (matchAt 7 settled)).
Proof. by vm_compute. Qed.

Lemma refund_after_timeout_witness :
  refund 99 50 56 7 full = Revert "Timeout not reached" ∧
  ∃ s', refund 99 50 57 7 full = Ok (tt, s') ∧
        Match.status (matchAt 7 s') = REFUNDED ∧
        balanceOf (gameToken s') 10 = 1000 ∧
        balanceOf (gameToken s') 11 = 1000.
Proof.
  split.
  - apply (refund_after_timeout 99 1 2 50 full 3 56 7); by vm_compute.
  - destruct (proj2 (refund_after_timeout 99 1 2 50 full 3 57 7
                       ltac:(by vm_compute) ltac:(by vm_compute)
                       ltac:(by vm_compute)))
      as (s' & He & Hst & H1 & H2 & _); try by vm_compute.
    change (Match.p1 (matchAt 7 full)) with 10 in H1.
    change (Match.p2 (matchAt 7 full)) with 11 in H2.
    exists s'. split; [exact He|]. split; [exact Hst|].
    split; [rewrite H1|rewrite H2]; by vm_compute.
Defined.

Lemma stake_all_or_nothing_witness :
  succeeds 99 1 2 50 6 (Stake 10 7) half_paused = false ∧
  step 99 1 2 50 6 (Stake 10 7) half_paused = half_paused ∧
  Match.p1Staked (matchAt 7 (step 99 1 2 50 6 (Stake 10 7) half_paused)) = false.
Proof.
  assert (Hf : succeeds 99 1 2 50 6 (Stake 10 7) half_paused = false).
  { apply (stake_all_or_nothing 99 1 2 50 half_paused 10 6 7).
    intros ok t' H. vm_compute in H. discriminate H. }
  split; [exact Hf|].
  destruct (proj1 (stake_all_or_nothing 99 1 2 50 half_paused 10 6 7) Hf)
    as [Hs Hm].
  split; [exact Hs|]. rewrite Hm. by vm_compute.
Defined.

Lemma single_stake_stays_witness :
  let later := [(1000, Refund 3 7); (1001, CommitResult 2 7 10);
                (1002, Stake 10 7); (1003, CreateMatch 1 7 10 11 5)] in
  matchAt 7 (run 99 1 2 50 later half) = matchAt 7 half ∧
  refund 99 50 100000 7 (run 99 1 2 50 later half) = Revert "Match not staked".
Proof.
  intros later.
  destruct (single_stake_stays 99 1 2 50 half 7 11 later)
    as (Hm & _ & _ & Hr & _);
    [by vm_compute | by vm_compute | left; by vm_compute | |].
  - unfold later. repeat (constructor; [by simpl|]). constructor.
  - split; [exact Hm|apply Hr].
Defined.

Lemma canRefund_iff_refund_witness :
  canRefund 50 57 7 full = Ok (true, full) ∧
  ∃ s', refund 99 50 57 7 full = Ok (tt, s').
Proof.
  destruct (canRefund_iff_refund 99 50 full 57 7) as (Hiff & _ & Hgo);
    [by vm_compute|].
  assert (Hcan : canRefund 50 57 7 full = Ok (true, full)).
  { apply Hiff. by vm_compute. }
  split; [exact Hcan|].
  apply Hgo; solve [by vm_compute | exact Hcan].
Defined.

Import Leaderboard.



(** The further properties at the concrete deployment. *)

Lemma createMatch_once_witness :
  Match.stake (matchAt 7 half) = 100 ∧
  ∃ msg, createMatch 1 1 7 10 11 5 half = Revert msg.
Proof.
  destruct (createMatch_once 99 1 2 50 fresh opened 1 7 10 11 100
              [(6, Stake 10 7)]) as (_ & _ & Hs & Hr); [by vm_compute|].
  split; [exact Hs|].
  destruct (Hr 1 10 11 5) as (msg & Hm & _). by exists msg.
Defined.

Lemma stake_rejects_witness :
  stake 99 33 6 7 opened = Revert "Not a player in this match".
Proof.
  apply (stake_rejects 99 1 2 50 opened 33 6 7); by vm_compute.
Defined.

Lemma history_no_self_calls : Forall (λ tc, call_sender tc.2 ≠ 99) history.
Proof. repeat (constructor; [by vm_compute|]). constructor. Qed.

Lemma token0_wf : token_wf token0.
Proof. by vm_compute. Qed.

Lemma reachable_match_shape_witness :
  Match.p1 (matchAt 7 settled) ≠ Match.p2 (matchAt 7 settled) ∧
  stakedCount (matchAt 7 settled) = 2.
Proof.
  destruct (reachable_match_shape 99 1 2 50 token0 history 7)
    as (_ & _ & _ & Hne & _ & _ & _ & Hc);
    [exact token0_wf | exact history_no_self_calls | by vm_compute |].
  split; [exact Hne|]. apply Hc. by vm_compute.
Defined.

Lemma staking_no_self_calls :
  Forall (λ tc, call_sender tc.2 ≠ 99)
    [(5, CreateMatch 1 7 10 11 100); (6, Stake 10 7); (7, Stake 11 7)].
Proof. repeat (constructor; [by vm_compute|]). constructor. Qed.

Lemma settlement_always_funded_witness :
  ∃ s', commitResult 99 2 2 7 11 full = Ok (tt, s') ∧
        Match.status (matchAt 7 s') = SETTLED.
Proof.
  destruct (settlement_always_funded 99 1 2 50 token0
              [(5, CreateMatch 1 7 10 11 100); (6, Stake 10 7); (7, Stake 11 7)]
              7 11 token0_wf staking_no_self_calls
              ltac:(done) ltac:(by vm_compute) ltac:(by vm_compute)
              ltac:(right; by vm_compute) ltac:(by vm_compute))
    as (s' & He & Hst & _).
  exists s'. split; [exact He|exact Hst].
Defined.

Lemma refund_always_funded_witness :
  ∃ s', refund 99 50 60 7 full = Ok (tt, s') ∧
        Match.status (matchAt 7 s') = REFUNDED.
Proof.
  destruct (refund_always_funded 99 1 2 50 token0
              [(5, CreateMatch 1 7 10 11 100); (6, Stake 10 7); (7, Stake 11 7)]
              60 7 token0_wf staking_no_self_calls
              ltac:(done) ltac:(by vm_compute) ltac:(by vm_compute)
              ltac:(by vm_compute) ltac:(by vm_compute) ltac:(by vm_compute))
    as (s' & He & Hst & _).
  exists s'. split; [exact He|exact Hst].
Defined.

Lemma settled_events_sound_witness :
  settled_count 7 settled = 1%nat ∧ settled_count 8 settled = 0%nat.
Proof.
  split.
  - apply (settled_events_sound 99 1 2 50 token0 history 7);
      [exact token0_wf | exact history_no_self_calls].
  - apply (settled_events_sound 99 1 2 50 token0 history 8);
      [exact token0_wf | exact history_no_self_calls].
Defined.

Lemma stake_takes_stake_witness :
  ∃ s', stake 99 10 6 7 opened = Ok (tt, s') ∧ held 99 s' = 100.
Proof.
  destruct (stake_takes_stake 99 opened 10 6 7
              ltac:(by vm_compute) ltac:(by vm_compute) ltac:(by vm_compute)
              ltac:(left; by vm_compute) ltac:(by vm_compute)
              ltac:(by vm_compute) ltac:(done) ltac:(done) ltac:(done)
              ltac:(by vm_compute) ltac:(by vm_compute))
    as (s' & He & _ & Hh & _).
  exists s'. split; [exact He|]. rewrite Hh. by vm_compute.
Defined.

Lemma mint_exact_witness :
  ∃ t', GameToken.mint 1 10 5 token0 = Ok (tt, t') ∧
        balanceOf t' 10 = 1005 ∧ totalSupply t' = 2005.
Proof.
  destruct (GameTokenFacts.mint_exact 1 10 5 token0) as (t' & He & Hb & Hs & _);
    [exact token0_wf | by vm_compute | done | done | by vm_compute |].
  exists t'. split; [exact He|]. split; [rewrite Hb|rewrite Hs]; by vm_compute.
Defined.

Lemma paused_blocks_transfers_witness :
  GameToken.transfer 10 11 30 paused_token = Revert "Pausable: paused".
Proof.
  apply (GameTokenFacts.paused_blocks_transfers paused_token 10 10 11 30).
  by vm_compute.
Defined.

Lemma transfer_moves_exactly_witness :
  balanceOf after_transfer 10 = 970 ∧ balanceOf after_transfer 11 = 1030.
Proof.
  destruct (GameTokenFacts.transfer_moves_exactly 10 11 30 token0
              after_transfer true) as (_ & _ & _ & _ & Hm & _);
    [exact token0_wf | by vm_compute |].
  destruct Hm as [H1 H2]; [done|].
  split; [rewrite H1|rewrite H2]; by vm_compute.
Defined.

Lemma transferFrom_spends_allowance_witness :
  allowance after_pull 10 99 = 0 ∧ allowance after_pull 11 99 = 100.
Proof.
  destruct (GameTokenFacts.transferFrom_spends_allowance 99 10 99 100 token0
              after_pull true) as (_ & Ha & Ho); [by vm_compute|].
  split.
  - rewrite Ha. by vm_compute.
  - rewrite Ho; [by vm_compute|done].
Defined.

Lemma buy_exact_witness :
  balanceOf (storeToken store1) 20 = 2 * 10 ^ 18 ∧
  balanceOf (usdt store1) 50 = 2000000.
Proof.
  destruct (buy_exact 50 20 2000000 store0 store1)
    as (_ & _ & _ & Hg & _ & _ & _ & Hu & _);
    [by vm_compute | by vm_compute | done | by vm_compute |].
  split; [rewrite Hg|rewrite Hu]; by vm_compute.
Defined.

Lemma withdrawUSDT_exact_witness :
  ∃ s', withdrawUSDT 50 1 1 30 500000 store1 = Ok (tt, s') ∧
        balanceOf (usdt s') 30 = 500000.
Proof.
  destruct (withdrawUSDT_exact 50 1 1 30 500000 store1) as (_ & _ & Hgo);
    [by vm_compute | done | done |].
  destruct Hgo as (s' & He & _ & Hb & _);
    [done | done | by vm_compute | by vm_compute |].
  exists s'. split; [exact He|]. rewrite Hb. by vm_compute.
Defined.


Lemma events_table_grows_witness :
  getEventCount (replay deliveries setupDatabase) = 5%nat.
Proof.
  destruct (LeaderboardFacts.events_table_grows deliveries setupDatabase)
    as (Hc & _); [done|].
  rewrite Hc. by vm_compute.
Defined.

End Examples.
